(** * Enhancement simulator: the engine of [src/App.jsx]

    A shallow embedding of the simulation and statistics functions of the
    single-file application: the seeded generator [createLCG], [percentile],
    the simulators [simulateStarsOnly] and [simulateFullRun], the worst-case
    calculators [worstCaseStarsOnly] and [worstCaseFull], and the batch driver
    [runSimulation] with its local [makeHistogram].

    Numbers.  JavaScript numbers are modelled exactly: integers (counters,
    thresholds, generator states) as [Z], real quantities (probabilities,
    draws, gold, percentiles) as [Q].  The generator itself is exact in
    JavaScript too: its state stays below 2^32 and
    [1664525 * state + 1013904223] stays below 2^53.  The gold is the one
    quantity whose rounding a run shows: each [gold += goldPerAttempt] rounds
    to a double.  The simulators below carry the exact sum; the module
    [Double] carries, over the same control flow, the doubles that the
    program holds, and the two are compared where the gold is at stake.

    Loops.  The [while] and [for (;;)] loops of the source need not terminate;
    they are modelled by functions that take a number of loop iterations they
    may spend ([fuel]) and return [None] when it is exhausted. *)

From Stdlib Require Import ZArith QArith Qround List Sorted Bool Lia Lqa.
From Stdlib Require Import PrimFloat.
Import ListNotations.

Local Open Scope Z_scope.

(** ** JavaScript arrays of numbers *)

Module Arr.

(** [Array(n).fill(v)] *)
Definition fill {A} (n : nat) (v : A) : list A := repeat v n.

(** [a[i]] for an index inside the array; [None] is [undefined]. *)
Definition get {A} (a : list A) (i : nat) : option A := nth_error a i.

(** [a[z]] for an integer index that may be negative. *)
Definition getZ {A} (a : list A) (z : Z) : option A :=
  if z <? 0 then None else nth_error a (Z.to_nat z).

(** [a[i] = v].  Every write of the engine is at an index below the
    array's length ([build_stars_lengths]); out of this range the list
    is left as it is, where JavaScript would extend the array. *)
Fixpoint set {A} (a : list A) (i : nat) (v : A) : list A :=
  match a, i with
  | [], _ => []
  | _ :: t, O => v :: t
  | h :: t, S j => h :: set t j v
  end.

(** The number read by [a[i]] in an integer array (0 stands for an
    [undefined] read, which the engine never does). *)
Definition at_ (a : list Z) (i : nat) : Z := nth i a 0.

(** [a.reduce((x, y) => x + y, 0)] *)
Definition sumZ (a : list Z) : Z := fold_left Z.add a 0.
Definition sumQ (a : list Q) : Q := fold_left Qplus a (0%Q).

End Arr.

(** ** Seeded generator *)

(** [x >>> 0] on an integer. *)
Definition to_uint32 (x : Z) : Z := x mod 2 ^ 32.

(** [let state = seed >>> 0 || 1] *)
Definition createLCG (seed : Z) : Z :=
  let s := to_uint32 seed in if s =? 0 then 1 else s.

(** One call of the closure [rand]: the new state, and the draw
    [state / 0xffffffff]. *)
Definition rand (state : Z) : Q * Z :=
  let state' := to_uint32 (1664525 * state + 1013904223) in
  (Qmake state' 4294967295, state').

(** The state after [n] calls, and the [n]-th draw (counted from 0). *)
Fixpoint lcg_state (seed : Z) (n : nat) : Z :=
  match n with
  | O => createLCG seed
  | S k => snd (rand (lcg_state seed k))
  end.

Definition lcg_draw (seed : Z) (n : nat) : Q := fst (rand (lcg_state seed n)).

(** ** Percentile helper *)

(** [percentile(sortedArr, p)].  [None] stands for a result that is not a
    number ([undefined] or [NaN]), which arises only when [p] is outside
    [0, 1]. *)
Definition percentile (sortedArr : list Q) (p : Q) : option Q :=
  match sortedArr with
  | [] => Some 0%Q
  | _ =>
    let pos := (inject_Z (Z.of_nat (length sortedArr) - 1) * p)%Q in
    let base := Qfloor pos in
    let rest := (pos - inject_Z base)%Q in
    match Arr.getZ sortedArr (base + 1) with
    | Some hi =>
      match Arr.getZ sortedArr base with
      | Some lo => Some (lo + rest * (hi - lo))%Q
      | None => None
      end
    | None => Arr.getZ sortedArr base
    end
  end.

(** ** Parameters of a run *)

Record Params := mkParams {
  goldPerAttempt : Q;
  starProbs : list Q;
  finalProb : Q;
  starPityThreshold : Z;
  finalPityThreshold : Z;
  starPityResetsOnAnyFail : bool;
  numStars : nat
}.

(** [x < p] where [p] was read from an array and may be [undefined]
    (the comparison is then false). *)
Definition Qltb (x y : Q) : bool := negb (Qle_bool y x).

Definition lt_prob (x : Q) (p : option Q) : bool :=
  match p with
  | Some q => Qltb x q
  | None => false
  end.

(** ** Core simulators *)

(** What a simulator returns: [{ attempts, gold, starAttempts }]. *)
Record RunOutcome := mkOutcome {
  attempts : Z;
  gold : Q;
  starAttempts : list Z
}.

(** The local variables of a simulator: the outcome being accumulated and
    the per-star pity counters. *)
Record Vars := mkVars {
  v_out : RunOutcome;
  starPityFails : list Z
}.

Section Simulators.

(** The random source handed to a simulator is a closure over a private
    state: a call returns a draw and moves the state. *)
Context {RS : Type} (rnd : RS -> Q * RS).
Variable params : Params.

Definition initVars : Vars :=
  mkVars (mkOutcome 0 0%Q (Arr.fill (numStars params) 0))
         (Arr.fill (numStars params) 0).

(** [handleFailReset()] *)
Definition handleFailReset (v : Vars) : Vars :=
  if starPityResetsOnAnyFail params
  then mkVars (v_out v) (Arr.fill (numStars params) 0)
  else v.

(** [attempts += 1; gold += goldPerAttempt], the gold being the exact sum
    of the prices; the double that the program holds after the rounded
    addition is that of [Double.charge]. *)
Definition charge (o : RunOutcome) : RunOutcome :=
  mkOutcome (attempts o + 1) (gold o + goldPerAttempt params)%Q (starAttempts o).

(** [starAttempts[i] += 1] *)
Definition countStar (o : RunOutcome) (i : nat) : RunOutcome :=
  mkOutcome (attempts o) (gold o)
            (Arr.set (starAttempts o) i (Arr.at_ (starAttempts o) i + 1)).

(** [guaranteed || rand() < p]: the source is drawn from only when the
    attempt is not guaranteed. *)
Definition decide (guaranteed : bool) (p : option Q) (r : RS) : bool * RS :=
  if guaranteed then (true, r)
  else let (x, r') := rnd r in (lt_prob x p, r').

(** One attempt on star [i]: the body shared by the two star loops.
    Returns whether the attempt succeeded. *)
Definition starAttempt (v : Vars) (i : nat) (r : RS) : bool * Vars * RS :=
  let o := countStar (charge (v_out v)) i in
  let guaranteed := starPityThreshold params <=? Arr.at_ (starPityFails v) i in
  let (success, r') := decide guaranteed (Arr.get (starProbs params) i) r in
  if success
  then (true, mkVars o (Arr.set (starPityFails v) i 0), r')
  else (false,
        handleFailReset
          (mkVars o (Arr.set (starPityFails v) i (Arr.at_ (starPityFails v) i + 1))),
        r').

(** The star-building loop, from star index [i].  In [simulateStarsOnly] it
    is [while (currentStars < numStars)] with [i = currentStars], set to 0
    on a failure; in [simulateFullRun] it is
    [for (let i = 0; i < numStars; i++)], where a failure sets [i = -1] and
    the increment brings it to 0 (its [currentStars] is written and never
    read). *)
Fixpoint build_stars (fuel : nat) (v : Vars) (i : nat) (r : RS)
  : option (Vars * RS) :=
  match fuel with
  | O => None
  | S fuel' =>
    if (i <? numStars params)%nat then
      match starAttempt v i r with
      | (true, v', r') => build_stars fuel' v' (S i) r'
      | (false, v', r') => build_stars fuel' v' O r'
      end
    else Some (v, r)
  end.

Definition simulateStarsOnly (fuel : nat) (r : RS) : option (RunOutcome * RS) :=
  match build_stars fuel initVars O r with
  | Some (v, r') => Some (v_out v, r')
  | None => None
  end.

(** The [for (;;)] loop of [simulateFullRun].  On success it returns the
    outcome together with the value of [finalPityFails], the number of
    failed final attempts. *)
Fixpoint full_loop (fuel : nat) (v : Vars) (finalPityFails : Z) (r : RS)
  : option (RunOutcome * Z * RS) :=
  match fuel with
  | O => None
  | S fuel' =>
    match build_stars fuel' v O r with
    | None => None
    | Some (v1, r1) =>
      let o := charge (v_out v1) in
      let finalGuaranteed := finalPityThreshold params <=? finalPityFails in
      let (finalSuccess, r2) := decide finalGuaranteed (Some (finalProb params)) r1 in
      if finalSuccess then Some (o, finalPityFails, r2)
      else full_loop fuel'
             (handleFailReset (mkVars o (starPityFails v1)))
             (finalPityFails + 1) r2
    end
  end.

Definition simulateFullRun (fuel : nat) (r : RS) : option (RunOutcome * RS) :=
  match full_loop fuel initVars 0 r with
  | Some (o, _, r') => Some (o, r')
  | None => None
  end.

End Simulators.

(** ** Deterministic worst-case calculators *)

(** A JavaScript number that may be [Infinity]. *)
Inductive ext (A : Type) : Type :=
| Finite (a : A)
| Infinity.
Arguments Finite {A} a.
Arguments Infinity {A}.

(** [{ attempts, gold }] *)
Record WorstCase := mkWorst {
  wc_attempts : ext Z;
  wc_gold : ext Q
}.

Section WorstCase.

Variable params : Params.

(** The adversarial star-building loop, shared by the two calculators:
    [while (currentStars < numStars)]. *)
Fixpoint wc_build (fuel : nat) (pity : list Z) (att : Z) (currentStars : nat)
  : option (list Z * Z) :=
  match fuel with
  | O => None
  | S fuel' =>
    if (currentStars <? numStars params)%nat then
      let i := currentStars in
      let guaranteed := starPityThreshold params <=? Arr.at_ pity i in
      let att := att + 1 in
      if guaranteed
      then wc_build fuel' (Arr.set pity i 0) att (S currentStars)
      else wc_build fuel' (Arr.set pity i (Arr.at_ pity i + 1)) att O
    else Some (pity, att)
  end.

Definition finiteWorst (att : Z) : WorstCase :=
  mkWorst (Finite att) (Finite (inject_Z att * goldPerAttempt params)%Q).

Definition worstCaseStarsOnly (fuel : nat) : option WorstCase :=
  if starPityResetsOnAnyFail params then Some (mkWorst Infinity Infinity)
  else
    match wc_build fuel (Arr.fill (numStars params) 0) 0 O with
    | Some (_, att) => Some (finiteWorst att)
    | None => None
    end.

(** The [for (;;)] loop of [worstCaseFull]. *)
Fixpoint wc_full_loop (fuel : nat) (pity : list Z) (finalPityFails att : Z)
  : option Z :=
  match fuel with
  | O => None
  | S fuel' =>
    match wc_build fuel' pity att O with
    | None => None
    | Some (pity', att') =>
      let finalGuaranteed := finalPityThreshold params <=? finalPityFails in
      let att'' := att' + 1 in
      if finalGuaranteed then Some att''
      else wc_full_loop fuel' pity' (finalPityFails + 1) att''
    end
  end.

Definition worstCaseFull (fuel : nat) : option WorstCase :=
  if starPityResetsOnAnyFail params then Some (mkWorst Infinity Infinity)
  else
    match wc_full_loop fuel (Arr.fill (numStars params) 0) 0 0 with
    | Some att => Some (finiteWorst att)
    | None => None
    end.

End WorstCase.

(** ** Batch driver and statistics *)

(** [[...arr].sort((x, y) => key(x) - key(y))]: the stable ascending
    arrangement, computed here by insertion. *)
Section SortBy.

Context {A : Type} (key : A -> Q).

Fixpoint insert_by (x : A) (l : list A) : list A :=
  match l with
  | [] => [x]
  | y :: t => if Qle_bool (key x) (key y) then x :: l else y :: insert_by x t
  end.

Definition sort_by (l : list A) : list A := fold_right insert_by [] l.

End SortBy.

Definition sort_num : list Q -> list Q := sort_by (fun x => x).

(** A JavaScript [Map] with numeric keys: entries in insertion order. *)
Module JsMap.

Definition t := list (Q * Z).

Fixpoint get (m : t) (k : Q) : option Z :=
  match m with
  | [] => None
  | (k', v) :: m' => if Qeq_bool k' k then Some v else get m' k
  end.

Fixpoint set (m : t) (k : Q) (v : Z) : t :=
  match m with
  | [] => [(k, v)]
  | (k', v') :: m' =>
    if Qeq_bool k' k then (k', v) :: m' else (k', v') :: set m' k v
  end.

End JsMap.

(** [{ attempts: k, runs: v }] *)
Record Bin := mkBin {
  bin_attempts : Q;
  bin_runs : Z
}.

(** [Math.floor(v / binSize) * binSize] *)
Definition binOf (binSize v : Q) : Q :=
  (inject_Z (Qfloor (v / binSize)) * binSize)%Q.

(** [x || 0] on the result of [map.get]. *)
Definition orZero (x : option Z) : Z :=
  match x with
  | Some c => c
  | None => 0
  end.

Definition fillBins (binSize : Q) (arr : list Q) (map : JsMap.t) : JsMap.t :=
  fold_left
    (fun map v =>
       let bin := binOf binSize v in
       JsMap.set map bin (orZero (JsMap.get map bin) + 1))
    arr map.

Definition makeHistogram (arr : list Q) (binSize : Q) : list Bin :=
  map (fun e => mkBin (fst e) (snd e)) (sort_by fst (fillBins binSize arr [])).

(** [arr.reduce((a, b) => a + b, 0) / arr.length]; [None] is the [NaN] of
    an empty batch. *)
Definition mean (arr : list Q) : option Q :=
  match arr with
  | [] => None
  | _ => Some (Arr.sumQ arr / inject_Z (Z.of_nat (length arr)))%Q
  end.

Record Summary := mkSummary {
  meanAttempts : option Q;
  medianAttempts : option Q;
  p90Attempts : option Q;
  p99Attempts : option Q;
  meanGold : option Q;
  medianGold : option Q;
  p90Gold : option Q;
  p99Gold : option Q
}.

(** The summary object built from the attempts and the golds of a batch. *)
Definition summarize (atts golds : list Q) : Summary :=
  let sA := sort_num atts in
  let sG := sort_num golds in
  mkSummary (mean atts)
            (percentile sA (1 # 2)) (percentile sA (9 # 10)) (percentile sA (99 # 100))
            (mean golds)
            (percentile sG (1 # 2)) (percentile sG (9 # 10)) (percentile sG (99 # 100)).

(** A row of [summarizePerStar], before [Math.round] and [formatNumber]
    render it. *)
Record StarRow := mkStarRow {
  row_mean : Q;
  row_p50 : option Q;
  row_p90 : option Q;
  row_p99 : option Q
}.

Definition summarizePerStar (perStarArrs : list (list Q)) : list StarRow :=
  map (fun arr =>
         let sorted := sort_num arr in
         mkStarRow (match mean arr with Some m => m | None => 0%Q end)
                   (percentile sorted (1 # 2))
                   (percentile sorted (9 # 10))
                   (percentile sorted (99 # 100)))
      perStarArrs.

(** [vals.forEach((val, idx) => cols[idx].push(val))], for [vals] and [cols]
    of the same length [numStars]. *)
Definition pushEach (cols : list (list Q)) (vals : list Z) : list (list Q) :=
  map (fun cv => fst cv ++ [inject_Z (snd cv)]) (combine cols vals).

(** The arrays filled by the trial loop. *)
Record Batch := mkBatch {
  starsAttempts : list Q;
  starsGolds : list Q;
  fullAttempts : list Q;
  fullGolds : list Q;
  starsAttemptsPerStar : list (list Q);
  fullAttemptsPerStar : list (list Q)
}.

Record Results := mkResults {
  starsSummary : Summary;
  fullSummary : Summary;
  starsHistogram : list Bin;
  fullHistogram : list Bin;
  wcStars : WorstCase;
  wcFull : WorstCase;
  res_params : Params;
  starsPerStarRows : list StarRow;
  fullPerStarRows : list StarRow
}.

(** [for (let t = 0; t < trials; t++)], with [n] trials left: a stars-only
    run, then a full run, on the one generator. *)
Fixpoint trials_loop (fuel : nat) (params : Params) (n : nat) (rng : Z) (b : Batch)
  : option Batch :=
  match n with
  | O => Some b
  | S n' =>
    match simulateStarsOnly rand params fuel rng with
    | None => None
    | Some (s, rng1) =>
      match simulateFullRun rand params fuel rng1 with
      | None => None
      | Some (f, rng2) =>
        trials_loop fuel params n' rng2
          (mkBatch (starsAttempts b ++ [inject_Z (attempts s)])
                   (starsGolds b ++ [gold s])
                   (fullAttempts b ++ [inject_Z (attempts f)])
                   (fullGolds b ++ [gold f])
                   (pushEach (starsAttemptsPerStar b) (starAttempts s))
                   (pushEach (fullAttemptsPerStar b) (starAttempts f)))
      end
    end
  end.

(** The [params] object of [runSimulation], from the fields [ui] of the
    form: the first [numStars] star probabilities are kept. *)
Definition formParams (ui : Params) : Params :=
  mkParams (goldPerAttempt ui) (firstn (numStars ui) (starProbs ui))
           (finalProb ui) (starPityThreshold ui) (finalPityThreshold ui)
           (starPityResetsOnAnyFail ui) (numStars ui).

(** [Number(seed) || 1] *)
Definition formSeed (seed : Z) : Z := if seed =? 0 then 1 else seed.

(** [runSimulation].  [None]: some loop did not finish within [fuel]. *)
Definition runSimulation (fuel : nat) (ui : Params) (trials : nat) (seed : Z)
  : option Results :=
  let params := formParams ui in
  let rng := createLCG (formSeed seed) in
  let perStar := Arr.fill (numStars ui) (@nil Q) in
  match trials_loop fuel params trials rng (mkBatch [] [] [] [] perStar perStar) with
  | None => None
  | Some b =>
    match worstCaseStarsOnly params fuel, worstCaseFull params fuel with
    | Some ws, Some wf =>
      Some (mkResults (summarize (starsAttempts b) (starsGolds b))
                      (summarize (fullAttempts b) (fullGolds b))
                      (makeHistogram (starsAttempts b) 5)
                      (makeHistogram (fullAttempts b) 5)
                      ws wf params
                      (summarizePerStar (starsAttemptsPerStar b))
                      (summarizePerStar (fullAttemptsPerStar b)))
    | _, _ => None
    end
  end.

(** ** The configurations of the diagnostics *)

(** Test 1: p = 1 everywhere, three stars. *)
Definition diag1 : Params :=
  mkParams 100 [1%Q; 1%Q; 1%Q] 1 6 6 false 3.

(** Test 2: p = 0 everywhere, two stars, pity 2. *)
Definition diag2 : Params :=
  mkParams 100 [0%Q; 0%Q] 0 2 2 false 2.

(** A loop run [f] (a function of its fuel) returns [x]: it does with some
    fuel, and with any larger one. *)
Definition returns {A} (f : nat -> option A) (x : A) : Prop :=
  exists fuel0 : nat, forall fuel : nat, (fuel0 <= fuel)%nat -> f fuel = Some x.

(** The loop run [f] never returns. *)
Definition diverges {A} (f : nat -> option A) : Prop :=
  forall fuel : nat, f fuel = None.

(** More fuel never changes what a loop run returned. *)
Definition monotone {A} (f : nat -> option A) : Prop :=
  forall n m x, f n = Some x -> (n <= m)%nat -> f m = Some x.

(** ** Closed form of the adversarial star phase *)

(** Failures a star absorbs before pity guarantees it. *)
Definition pityFails (params : Params) : nat :=
  Z.to_nat (starPityThreshold params).

(** Attempts the adversarial loop spends to build the first [k] stars from
    cleared pity counters: star [k] fails [pityFails] times, each failure
    after a rebuild of the stars below it, and then succeeds. *)
Fixpoint buildCost (params : Params) (k : nat) : nat :=
  match k with
  | O => O
  | S j => (S (pityFails params) * S (buildCost params j))%nat
  end.

(** The pity counters of the stars below [k] are 0. *)
Definition zeroBelow (k : nat) (pity : list Z) : Prop :=
  forall i, (i < k)%nat -> Arr.at_ pity i = 0.

(** A seed whose first draw is [0xffffffff / 0xffffffff]. *)
Definition seedOfOne : Z := 653637408.

(** A form with every probability 0 and pity cleared on any failure. *)
Definition stuckForm : Params :=
  mkParams 170000 [0%Q; 0%Q; 0%Q; 0%Q] 0 6 6 true 4.

(** ** Orders on results *)

(** [x <= y] between results that must both be numbers. *)
Definition ole (x y : option Q) : Prop :=
  match x, y with
  | Some a, Some b => (a <= b)%Q
  | _, _ => False
  end.

(** The element read at an integer index inside a sorted array. *)
Definition nthQ (l : list Q) (z : Z) : Q := nth (Z.to_nat z) l 0%Q.


(** ** What a histogram should hold *)

(** The number of samples of [arr] that fall in the bin starting at [k]. *)
Definition countBin (binSize : Q) (arr : list Q) (k : Q) : Z :=
  Z.of_nat (length (filter (fun v => Qeq_bool (binOf binSize v) k) arr)).

(** The runs of all the bins together. *)
Definition sumRuns (h : list Bin) : Z := Arr.sumZ (map bin_runs h).

(** The counts of all the entries of a map together. *)
Definition sumCounts (m : JsMap.t) : Z := Arr.sumZ (map snd m).

(** No two entries of the list have the same key. *)
Fixpoint distinctKeys {A} (key : A -> Q) (l : list A) : Prop :=
  match l with
  | [] => True
  | x :: t => (forall e, In e t -> ~ (key e == key x)%Q) /\ distinctKeys key t
  end.

(** The map [m] holds the bins of the samples [done]: for every bin start
    the count of the samples in it (no entry when there is none), one entry
    per bin, every key the bin of some sample. *)
Definition binsOf (binSize : Q) (done : list Q) (m : JsMap.t) : Prop :=
  (forall k, JsMap.get m k =
             if countBin binSize done k =? 0 then None
             else Some (countBin binSize done k)) /\
  distinctKeys fst m /\
  (forall e, In e m -> exists v, In v done /\ fst e = binOf binSize v) /\
  sumCounts m = Z.of_nat (length done).

(** ** Bookkeeping of a run *)

(** The outcome [o] accounts for its attempts: one counter per star, the
    attempts being the star attempts plus [finals] final attempts, and the
    gold being the attempts times the price. *)
Definition balanced (params : Params) (finals : Z) (o : RunOutcome) : Prop :=
  length (starAttempts o) = numStars params /\
  attempts o = Arr.sumZ (starAttempts o) + finals /\
  (gold o == inject_Z (attempts o) * goldPerAttempt params)%Q.

(** What the adversarial loops track of a simulator's variables. *)
Definition pityAndAttempts {RS} (x : Vars * RS) : list Z * Z :=
  (starPityFails (fst x), attempts (v_out (fst x))).

Definition attemptsOf {RS} (x : RunOutcome * Z * RS) : Z :=
  attempts (fst (fst x)).

(** ** Helpers of the form *)

(** [suggestedStarsForLevel(L)] *)
Definition suggestedStarsForLevel (L : Z) : Z :=
  if L <=? 15 then 3 else if 20 <=? L then 5 else 4.

(** [prev.length ? prev[prev.length - 1] : 0.2], the value that
    [resizeStarProbs] pads with. *)
Definition padValue (prev : list Q) : Q :=
  match prev with
  | [] => 1 # 5
  | _ => last prev 0%Q
  end.

(** [while (next.length < n) next.push(pad)] *)
Fixpoint pushUntil (fuel : nat) (n : nat) (pad : Q) (next : list Q)
  : option (list Q) :=
  match fuel with
  | O => None
  | S fuel' =>
    if (length next <? n)%nat then pushUntil fuel' n pad (next ++ [pad])
    else Some next
  end.

(** The new star probabilities that [resizeStarProbs(n)] computes from the
    previous ones: [prev.slice(0, n)], padded. *)
Definition resizeStarProbs (fuel : nat) (n : nat) (prev : list Q)
  : option (list Q) :=
  pushUntil fuel n (padValue prev) (firstn n prev).

(** [applySuggestedStars], from the level and the previous probabilities:
    the new [starsRequired] and the new [starProbs]. *)
Definition applySuggestedStars (fuel : nat) (fromLevel : Z) (prev : list Q)
  : option (Z * list Q) :=
  let suggested := suggestedStarsForLevel fromLevel in
  match resizeStarProbs fuel (Z.to_nat suggested) prev with
  | Some next => Some (suggested, next)
  | None => None
  end.

(** ** Measures of a run in progress *)

(** The attempts the adversarial loop would still spend on the stars from
    index [j] on, each rebuilt from below as often as its pity counter
    allows: star [j] with counter [x] fails [threshold - x] more times. *)
Fixpoint potential (params : Params) (j : nat) (pity : list Z) : nat :=
  match pity with
  | [] => O
  | x :: t =>
    (Z.to_nat (starPityThreshold params - x) * S (buildCost params j) + 1
     + potential params (S j) t)%nat
  end.

(** Every star has been attempted at least as often as the next one, and
    the star just below the current index [c] once more. *)
Definition stairs (c : nat) (sa : list Z) : Prop :=
  (forall j, Arr.at_ sa (S j) <= Arr.at_ sa j) /\
  (forall j, c = S j -> Arr.at_ sa (S j) + 1 <= Arr.at_ sa j).

(** The parameters with another star pity threshold. *)
Definition withStarPity (params : Params) (t : Z) : Params :=
  mkParams (goldPerAttempt params) (starProbs params) (finalProb params)
           t (finalPityThreshold params)
           (starPityResetsOnAnyFail params) (numStars params).

(** Each gold of a batch is the attempts beside it times the price. *)
Definition pricedBy (price : Q) (atts golds : list Q) : Prop :=
  Forall2 (fun a g => g == a * price)%Q atts golds.

(** ** The gold in double precision *)

(** The simulators and the worst-case calculators with [gold] and
    [goldPerAttempt] as the program holds them, in IEEE doubles ([float],
    binary64).  Counters, pity arrays, probabilities and draws are as in the
    definitions above: [goldPerAttempt] is given beside [params], whose other
    fields are read. *)
Module Double.

(** The double of an integer counter (the counter itself, below 2^53). *)
Fixpoint ofPos (p : positive) : float :=
  match p with
  | xH => 1%float
  | xO q => (2 * ofPos q)%float
  | xI q => (2 * ofPos q + 1)%float
  end.

Definition ofZ (z : Z) : float :=
  match z with
  | Z0 => 0%float
  | Zpos p => ofPos p
  | Zneg p => (- ofPos p)%float
  end.

(** [{ attempts, gold, starAttempts }] *)
Record RunOutcome := mkOutcome {
  attempts : Z;
  gold : float;
  starAttempts : list Z
}.

Record Vars := mkVars {
  v_out : RunOutcome;
  starPityFails : list Z
}.

Section Simulators.

Context {RS : Type} (rnd : RS -> Q * RS).
Variable goldPerAttempt : float.
Variable params : Params.

Definition initVars : Vars :=
  mkVars (mkOutcome 0 0%float (Arr.fill (numStars params) 0))
         (Arr.fill (numStars params) 0).

(** [handleFailReset()] *)
Definition handleFailReset (v : Vars) : Vars :=
  if starPityResetsOnAnyFail params
  then mkVars (v_out v) (Arr.fill (numStars params) 0)
  else v.

(** [attempts += 1; gold += goldPerAttempt], the addition being that of
    doubles. *)
Definition charge (o : RunOutcome) : RunOutcome :=
  mkOutcome (attempts o + 1) (gold o + goldPerAttempt)%float (starAttempts o).

(** [starAttempts[i] += 1] *)
Definition countStar (o : RunOutcome) (i : nat) : RunOutcome :=
  mkOutcome (attempts o) (gold o)
            (Arr.set (starAttempts o) i (Arr.at_ (starAttempts o) i + 1)).

(** One attempt on star [i]. *)
Definition starAttempt (v : Vars) (i : nat) (r : RS) : bool * Vars * RS :=
  let o := countStar (charge (v_out v)) i in
  let guaranteed := starPityThreshold params <=? Arr.at_ (starPityFails v) i in
  let (success, r') := decide rnd guaranteed (Arr.get (starProbs params) i) r in
  if success
  then (true, mkVars o (Arr.set (starPityFails v) i 0), r')
  else (false,
        handleFailReset
          (mkVars o (Arr.set (starPityFails v) i (Arr.at_ (starPityFails v) i + 1))),
        r').

(** The star-building loop of the two simulators. *)
Fixpoint build_stars (fuel : nat) (v : Vars) (i : nat) (r : RS)
  : option (Vars * RS) :=
  match fuel with
  | O => None
  | S fuel' =>
    if (i <? numStars params)%nat then
      match starAttempt v i r with
      | (true, v', r') => build_stars fuel' v' (S i) r'
      | (false, v', r') => build_stars fuel' v' O r'
      end
    else Some (v, r)
  end.

Definition simulateStarsOnly (fuel : nat) (r : RS) : option (RunOutcome * RS) :=
  match build_stars fuel initVars O r with
  | Some (v, r') => Some (v_out v, r')
  | None => None
  end.

(** The [for (;;)] loop of [simulateFullRun]. *)
Fixpoint full_loop (fuel : nat) (v : Vars) (finalPityFails : Z) (r : RS)
  : option (RunOutcome * Z * RS) :=
  match fuel with
  | O => None
  | S fuel' =>
    match build_stars fuel' v O r with
    | None => None
    | Some (v1, r1) =>
      let o := charge (v_out v1) in
      let finalGuaranteed := finalPityThreshold params <=? finalPityFails in
      let (finalSuccess, r2) := decide rnd finalGuaranteed (Some (finalProb params)) r1 in
      if finalSuccess then Some (o, finalPityFails, r2)
      else full_loop fuel'
             (handleFailReset (mkVars o (starPityFails v1)))
             (finalPityFails + 1) r2
    end
  end.

Definition simulateFullRun (fuel : nat) (r : RS) : option (RunOutcome * RS) :=
  match full_loop fuel initVars 0 r with
  | Some (o, _, r') => Some (o, r')
  | None => None
  end.

End Simulators.

(** [{ attempts, gold }]; the gold is a double, [Infinity] included. *)
Record WorstCase := mkWorst {
  wc_attempts : ext Z;
  wc_gold : float
}.

Section WorstCase.

Variable goldPerAttempt : float.
Variable params : Params.

(** [{ attempts, gold: attempts * goldPerAttempt }] *)
Definition finiteWorst (att : Z) : WorstCase :=
  mkWorst (Finite att) (ofZ att * goldPerAttempt)%float.

Definition worstCaseStarsOnly (fuel : nat) : option WorstCase :=
  if starPityResetsOnAnyFail params then Some (mkWorst Infinity infinity)
  else
    match wc_build params fuel (Arr.fill (numStars params) 0) 0 O with
    | Some (_, att) => Some (finiteWorst att)
    | None => None
    end.

Definition worstCaseFull (fuel : nat) : option WorstCase :=
  if starPityResetsOnAnyFail params then Some (mkWorst Infinity infinity)
  else
    match wc_full_loop params fuel (Arr.fill (numStars params) 0) 0 0 with
    | Some att => Some (finiteWorst att)
    | None => None
    end.

End WorstCase.

(** [price] added to 0 in doubles, [n] times over. *)
Fixpoint addTimes (price : float) (n : nat) : float :=
  match n with
  | O => 0%float
  | S k => (addTimes price k + price)%float
  end.

(** The gold of [o] is the price added once per attempt. *)
Definition accumulated (price : float) (o : RunOutcome) : Prop :=
  0 <= attempts o /\ gold o = addTimes price (Z.to_nat (attempts o)).

(** The double of 0.1. *)
Definition tenth : float := 0x1.999999999999ap-4%float.

End Double.

(** The variables [vd] of a run in doubles are those of [v] but for the
    gold. *)
Definition sameCounters (vd : Double.Vars) (v : Vars) : Prop :=
  Double.attempts (Double.v_out vd) = attempts (v_out v) /\
  Double.starAttempts (Double.v_out vd) = starAttempts (v_out v) /\
  Double.starPityFails vd = starPityFails v.

(** What a returned outcome holds besides its gold, and the random source
    after the run. *)
Definition countersD {RS} (x : Double.RunOutcome * RS) : Z * list Z * RS :=
  (Double.attempts (fst x), Double.starAttempts (fst x), snd x).

Definition countersQ {RS} (x : RunOutcome * RS) : Z * list Z * RS :=
  (attempts (fst x), starAttempts (fst x), snd x).

(** * Properties *)

(** ** Arrays *)

Module ArrFacts.

Lemma length_set {A} (a : list A) i v : length (Arr.set a i v) = length a.
Proof.
  revert i; induction a as [|h t IH]; intros [|j]; simpl; auto.
Qed.

Lemma length_fill {A} n (v : A) : length (Arr.fill n v) = n.
Proof. apply repeat_length. Qed.

Lemma at_set_same a i v : (i < length a)%nat -> Arr.at_ (Arr.set a i v) i = v.
Proof.
  unfold Arr.at_; revert i; induction a as [|h t IH]; intros [|j] H;
    simpl in *; try lia; auto.
  apply IH; lia.
Qed.

Lemma at_set_other a i j v : i <> j -> Arr.at_ (Arr.set a i v) j = Arr.at_ a j.
Proof.
  unfold Arr.at_; revert i j; induction a as [|h t IH]; intros [|i] [|j] H;
    simpl; auto; try congruence.
Qed.

Lemma set_set {A} (a : list A) i v w : Arr.set (Arr.set a i v) i w = Arr.set a i w.
Proof.
  revert i; induction a as [|h t IH]; intros [|j]; simpl; auto.
  now rewrite IH.
Qed.

Lemma set_same a i : Arr.set a i (Arr.at_ a i) = a.
Proof.
  unfold Arr.at_; revert i; induction a as [|h t IH]; intros [|j]; simpl; auto.
  now rewrite IH.
Qed.

Lemma at_fill n i : Arr.at_ (Arr.fill n 0) i = 0.
Proof.
  unfold Arr.at_, Arr.fill; revert i; induction n as [|n IH]; intros [|i];
    simpl; auto.
Qed.

Lemma fold_add_shift a x : fold_left Z.add a x = x + fold_left Z.add a 0.
Proof.
  revert x; induction a as [|h t IH]; intro x; simpl; [lia|].
  rewrite (IH (x + h)), (IH h); lia.
Qed.

Lemma sumZ_cons h t : Arr.sumZ (h :: t) = h + Arr.sumZ t.
Proof. unfold Arr.sumZ; simpl; apply fold_add_shift. Qed.

Lemma sumZ_set a i v :
  (i < length a)%nat -> Arr.sumZ (Arr.set a i v) = Arr.sumZ a - Arr.at_ a i + v.
Proof.
  revert i; induction a as [|h t IH]; intros [|j] H; simpl in *; try lia.
  - rewrite !sumZ_cons; unfold Arr.at_; simpl; lia.
  - rewrite !sumZ_cons, IH by lia. unfold Arr.at_; simpl; lia.
Qed.

Lemma sumZ_fill n : Arr.sumZ (Arr.fill n 0) = 0.
Proof.
  induction n as [|n IH]; [reflexivity|].
  change (Arr.fill (S n) 0) with (0 :: Arr.fill n 0).
  rewrite sumZ_cons, IH; reflexivity.
Qed.

End ArrFacts.

(** ** Worst case: the adversarial loops in closed form *)

Section WorstCaseFacts.

Variable params : Params.

Let N := numStars params.
Let T := starPityThreshold params.

Local Abbreviation pityFails := (pityFails params).
Local Abbreviation buildCost := (buildCost params).

Lemma wc_build_step fuel pity att cur :
  wc_build params (S fuel) pity att cur =
  if (cur <? N)%nat then
    if T <=? Arr.at_ pity cur
    then wc_build params fuel (Arr.set pity cur 0) (att + 1) (S cur)
    else wc_build params fuel (Arr.set pity cur (Arr.at_ pity cur + 1)) (att + 1) O
  else Some (pity, att).
Proof. reflexivity. Qed.

Lemma wc_build_mono fuel : forall fuel' pity att cur x,
  wc_build params fuel pity att cur = Some x -> (fuel <= fuel')%nat ->
  wc_build params fuel' pity att cur = Some x.
Proof.
  induction fuel as [|fuel IH]; intros fuel' pity att cur x H Hle;
    [discriminate|].
  destruct fuel' as [|fuel']; [lia|].
  rewrite wc_build_step in *.
  destruct (cur <? N)%nat; [|exact H].
  destruct (T <=? Arr.at_ pity cur); apply IH; auto; lia.
Qed.

Lemma zeroBelow_set k pity v :
  zeroBelow k pity -> zeroBelow k (Arr.set pity k v).
Proof.
  intros H i Hi. rewrite ArrFacts.at_set_other by lia. now apply H.
Qed.

(** Star [k], reached with the stars below it at pity 0: it fails until
    its pity reaches the threshold, each failure costing a rebuild of the
    [k] stars below. *)
Lemma wc_star k
  (IHk : forall pity att f, length pity = N -> zeroBelow k pity ->
     wc_build params (buildCost k + f) pity att O =
     wc_build params f pity (att + Z.of_nat (buildCost k)) k) :
  (k < N)%nat ->
  forall (r : nat) pity att f,
    length pity = N -> zeroBelow k pity ->
    r = Z.to_nat (T - Arr.at_ pity k) ->
    wc_build params (S r * S (buildCost k) + f) pity att O =
    wc_build params f (Arr.set pity k 0)
             (att + Z.of_nat (S r * S (buildCost k))) (S k).
Proof.
  intros Hk r; induction r as [|r IHr]; intros pity att f Hlen Hz Hr.
  - replace (1 * S (buildCost k) + f)%nat with (buildCost k + S f)%nat by lia.
    rewrite IHk, wc_build_step by assumption.
    replace (k <? N)%nat with true by (symmetry; apply Nat.ltb_lt; lia).
    replace (T <=? Arr.at_ pity k) with true by (symmetry; apply Z.leb_le; lia).
    f_equal; lia.
  - replace (S (S r) * S (buildCost k) + f)%nat
      with (buildCost k + S (S r * S (buildCost k) + f))%nat by lia.
    rewrite IHk, wc_build_step by assumption.
    replace (k <? N)%nat with true by (symmetry; apply Nat.ltb_lt; lia).
    replace (T <=? Arr.at_ pity k) with false by (symmetry; apply Z.leb_gt; lia).
    rewrite IHr.
    + rewrite ArrFacts.set_set. f_equal. lia.
    + now rewrite ArrFacts.length_set.
    + now apply zeroBelow_set.
    + rewrite ArrFacts.at_set_same by lia. lia.
Qed.

Lemma wc_prefix k : (k <= N)%nat ->
  forall pity att f, length pity = N -> zeroBelow k pity ->
    wc_build params (buildCost k + f) pity att O =
    wc_build params f pity (att + Z.of_nat (buildCost k)) k.
Proof.
  induction k as [|k IH]; intros Hk pity att f Hlen Hz.
  - simpl. f_equal. lia.
  - assert (Hz' : zeroBelow k pity) by (intros i Hi; apply Hz; lia).
    assert (H0 : Arr.at_ pity k = 0) by (apply Hz; lia).
    pose proof (wc_star k (IH ltac:(lia)) ltac:(lia) (Z.to_nat (T - Arr.at_ pity k))
                  pity att f Hlen Hz' eq_refl) as H.
    pose proof (ArrFacts.set_same pity k) as Hs.
    rewrite H0 in H, Hs. rewrite Hs in H.
    replace (Z.to_nat (T - 0)) with pityFails in H by (unfold pityFails; f_equal; lia).
    exact H.
Qed.

Lemma zeroBelow_fill k : zeroBelow k (Arr.fill N 0).
Proof. intros i _. apply ArrFacts.at_fill. Qed.

(** The adversarial star phase from cleared pity counters ends with the
    counters cleared again. *)
Lemma wc_build_zeros fuel att : (buildCost N < fuel)%nat ->
  wc_build params fuel (Arr.fill N 0) att O =
  Some (Arr.fill N 0, att + Z.of_nat (buildCost N)).
Proof.
  intro H. replace fuel with (buildCost N + S (fuel - buildCost N - 1))%nat by lia.
  rewrite wc_prefix; auto using ArrFacts.length_fill, zeroBelow_fill.
  rewrite wc_build_step.
  replace (N <? N)%nat with false by (symmetry; apply Nat.ltb_ge; lia).
  reflexivity.
Qed.

Lemma wc_full_loop_mono fuel : forall fuel' pity fpf att x,
  wc_full_loop params fuel pity fpf att = Some x -> (fuel <= fuel')%nat ->
  wc_full_loop params fuel' pity fpf att = Some x.
Proof.
  induction fuel as [|fuel IH]; intros fuel' pity fpf att x H Hle;
    [discriminate|].
  destruct fuel' as [|fuel']; [lia|].
  simpl in *.
  destruct (wc_build params fuel pity att 0) as [[pity' att']|] eqn:E;
    [|discriminate].
  rewrite (wc_build_mono _ fuel' _ _ _ _ E) by lia.
  destruct (finalPityThreshold params <=? fpf); [exact H|].
  apply IH; auto; lia.
Qed.

(** The full adversarial loop from cleared pity counters: the remaining
    final failures, each after a whole star phase, then the guaranteed
    final attempt. *)
Lemma wc_full_loop_zeros (r : nat) : forall fuel fpf att,
  r = Z.to_nat (finalPityThreshold params - fpf) ->
  (r + S (buildCost N) < fuel)%nat ->
  wc_full_loop params fuel (Arr.fill N 0) fpf att =
  Some (att + Z.of_nat (S r * S (buildCost N))).
Proof.
  induction r as [|r IH]; intros fuel fpf att Hr Hf;
    (destruct fuel as [|fuel]; [lia|]); simpl;
    fold N; rewrite wc_build_zeros by lia.
  - replace (finalPityThreshold params <=? fpf) with true
      by (symmetry; apply Z.leb_le; lia).
    f_equal; lia.
  - replace (finalPityThreshold params <=? fpf) with false
      by (symmetry; apply Z.leb_gt; lia).
    rewrite IH by lia. f_equal; lia.
Qed.

End WorstCaseFacts.

(** ** Results of loop runs do not depend on the fuel *)

Lemma returns_unique {A} (f : nat -> option A) x y n :
  monotone f -> returns f x -> f n = Some y -> y = x.
Proof.
  intros Hm [n0 H0] Hn.
  pose proof (Hm n (Nat.max n n0) y Hn (Nat.le_max_l _ _)) as H1.
  rewrite (H0 (Nat.max n n0) (Nat.le_max_r _ _)) in H1. congruence.
Qed.

Lemma worstCaseStarsOnly_mono p : monotone (worstCaseStarsOnly p).
Proof.
  intros n m x H Hle. unfold worstCaseStarsOnly in *.
  destruct (starPityResetsOnAnyFail p); [exact H|].
  destruct (wc_build p n _ 0 0) as [[pity att]|] eqn:E; [|discriminate].
  now rewrite (wc_build_mono p n m _ _ _ _ E Hle).
Qed.

Lemma worstCaseFull_mono p : monotone (worstCaseFull p).
Proof.
  intros n m x H Hle. unfold worstCaseFull in *.
  destruct (starPityResetsOnAnyFail p); [exact H|].
  destruct (wc_full_loop p n _ 0 0) as [att|] eqn:E; [|discriminate].
  now rewrite (wc_full_loop_mono p n m _ _ _ _ E Hle).
Qed.

Lemma worstCaseStarsOnly_returns p :
  starPityResetsOnAnyFail p = false ->
  returns (worstCaseStarsOnly p)
          (finiteWorst p (Z.of_nat (buildCost p (numStars p)))).
Proof.
  intro Hr. exists (S (buildCost p (numStars p))). intros fuel Hf.
  unfold worstCaseStarsOnly. rewrite Hr, wc_build_zeros by lia. reflexivity.
Qed.

Lemma worstCaseFull_returns p :
  starPityResetsOnAnyFail p = false ->
  returns (worstCaseFull p)
          (finiteWorst p
             (Z.of_nat (S (Z.to_nat (finalPityThreshold p))
                        * S (buildCost p (numStars p))))).
Proof.
  intro Hr.
  exists (S (Z.to_nat (finalPityThreshold p) + S (buildCost p (numStars p)))).
  intros fuel Hf. unfold worstCaseFull.
  rewrite Hr, (wc_full_loop_zeros p (Z.to_nat (finalPityThreshold p))) by (f_equal; lia).
  reflexivity.
Qed.

(** ** Worst-case outcomes *)



(** C7.  With [starPityResetsOnAnyFail] clear and a final pity threshold of
    at least 0: every adversarial star phase that starts from cleared star
    pity counters ends with them cleared, so each repetition of
    [worstCaseFull] starts from zero with only [finalPityFails] carried
    over; both calculators return, and the attempts of [worstCaseFull] are
    [(finalPityThreshold + 1) * (a + 1)] for [a] the attempts of
    [worstCaseStarsOnly], whatever fuel made them return. *)
Theorem worstCaseFull_repeats_stars (p : Params) :
  starPityResetsOnAnyFail p = false ->
  0 <= finalPityThreshold p ->
  (forall fuel att pity' att',
      wc_build p fuel (Arr.fill (numStars p) 0) att O = Some (pity', att') ->
      pity' = Arr.fill (numStars p) 0)
  /\ (exists a : Z,
        returns (worstCaseStarsOnly p) (finiteWorst p a) /\
        returns (worstCaseFull p)
                (finiteWorst p ((finalPityThreshold p + 1) * (a + 1))))
  /\ (forall fuel1 fuel2 ws wf,
        worstCaseStarsOnly p fuel1 = Some ws ->
        worstCaseFull p fuel2 = Some wf ->
        exists a : Z,
          wc_attempts ws = Finite a /\
          wc_attempts wf = Finite ((finalPityThreshold p + 1) * (a + 1))).
Proof.
  intros Hr Hft.
  assert (Hfull : returns (worstCaseFull p)
            (finiteWorst p ((finalPityThreshold p + 1)
                            * (Z.of_nat (buildCost p (numStars p)) + 1)))).
  { pose proof (worstCaseFull_returns p Hr) as H.
    replace (Z.of_nat (S (Z.to_nat (finalPityThreshold p))
                       * S (buildCost p (numStars p))))
      with ((finalPityThreshold p + 1)
            * (Z.of_nat (buildCost p (numStars p)) + 1)) in H by lia.
    exact H. }
  split; [|split].
  - intros fuel att pity' att' H.
    pose proof (wc_build_mono p fuel (Nat.max fuel (S (buildCost p (numStars p))))
                  _ _ _ _ H (Nat.le_max_l _ _)) as H1.
    rewrite wc_build_zeros in H1 by lia. congruence.
  - eexists; split; [now apply worstCaseStarsOnly_returns | exact Hfull].
  - intros fuel1 fuel2 ws wf H1 H2.
    exists (Z.of_nat (buildCost p (numStars p))).
    rewrite (returns_unique _ _ _ _ (worstCaseStarsOnly_mono p)
               (worstCaseStarsOnly_returns p Hr) H1).
    rewrite (returns_unique _ _ _ _ (worstCaseFull_mono p) Hfull H2).
    split; reflexivity.
Qed.

Lemma worstCaseFull_repeats_stars_witness :
  exists a : Z,
    returns (worstCaseStarsOnly diag2) (finiteWorst diag2 a) /\
    returns (worstCaseFull diag2)
            (finiteWorst diag2 ((finalPityThreshold diag2 + 1) * (a + 1))).
Proof.
  exact (proj1 (proj2 (worstCaseFull_repeats_stars diag2 eq_refl
                         ltac:(simpl; lia)))).
Defined.

(** ** Seeded generator: range of the draws *)

Lemma to_uint32_range x : 0 <= to_uint32 x < 2 ^ 32.
Proof. unfold to_uint32. apply Z.mod_pos_bound. reflexivity. Qed.

Lemma rand_range state : (0 <= fst (rand state) <= 1)%Q.
Proof.
  unfold rand.
  pose proof (to_uint32_range (1664525 * state + 1013904223)) as H.
  change (2 ^ 32) with 4294967296 in H.
  set (u := to_uint32 (1664525 * state + 1013904223)) in *.
  unfold Qle; cbn [fst Qnum Qden]. lia.
Qed.

Lemma rand_nonneg state : (0 <= fst (rand state))%Q.
Proof. apply rand_range. Qed.

(** ** Simulators: bookkeeping, fuel, adversarial runs *)

Section SimulatorFacts.

Context {RS : Type} (rnd : RS -> Q * RS).
Variable params : Params.

Let N := numStars params.

Lemma starAttempt_out v i r :
  v_out (snd (fst (starAttempt rnd params v i r))) =
  countStar (charge params (v_out v)) i.
Proof.
  unfold starAttempt.
  destruct (decide rnd _ _ r) as [[|] r']; simpl; auto.
  unfold handleFailReset; destruct (starPityResetsOnAnyFail params); auto.
Qed.

Lemma charge_balanced k o :
  balanced params k o -> balanced params (k + 1) (charge params o).
Proof.
  intros (Hl & Ha & Hg). unfold balanced, charge; simpl.
  repeat split; [assumption | lia |].
  rewrite Hg, inject_Z_plus. ring.
Qed.

Lemma countStar_charge_balanced k o i :
  (i < N)%nat -> balanced params k o ->
  balanced params k (countStar (charge params o) i).
Proof.
  intros Hi (Hl & Ha & Hg). unfold balanced, countStar, charge; simpl.
  repeat split.
  - now rewrite ArrFacts.length_set.
  - rewrite ArrFacts.sumZ_set by (fold N in Hl; lia). lia.
  - rewrite Hg, inject_Z_plus. ring.
Qed.

Lemma build_stars_balanced k fuel : forall v i r v' r',
  build_stars rnd params fuel v i r = Some (v', r') ->
  balanced params k (v_out v) -> balanced params k (v_out v').
Proof.
  induction fuel as [|fuel IH]; intros v i r v' r' H Hb; [discriminate|].
  simpl in H. destruct (i <? numStars params)%nat eqn:Ei.
  - apply Nat.ltb_lt in Ei.
    pose proof (starAttempt_out v i r) as Ho.
    destruct (starAttempt rnd params v i r) as [[b v1] r1]; simpl in Ho.
    assert (Hb1 : balanced params k (v_out v1))
      by (rewrite Ho; now apply countStar_charge_balanced).
    destruct b; eapply IH; eauto.
  - injection H as <- <-. exact Hb.
Qed.

Lemma handleFailReset_out v : v_out (handleFailReset params v) = v_out v.
Proof.
  unfold handleFailReset; destruct (starPityResetsOnAnyFail params); auto.
Qed.

Lemma full_loop_balanced fuel : forall v fpf r o fpf' r',
  full_loop rnd params fuel v fpf r = Some (o, fpf', r') ->
  balanced params fpf (v_out v) -> 0 <= fpf ->
  balanced params (fpf' + 1) o /\ 0 <= fpf'.
Proof.
  induction fuel as [|fuel IH]; intros v fpf r o fpf' r' H Hb Hf;
    [discriminate|].
  simpl in H.
  destruct (build_stars rnd params fuel v 0 r) as [[v1 r1]|] eqn:E;
    [|discriminate].
  apply (build_stars_balanced fpf) in E; [|assumption].
  destruct (decide rnd _ _ r1) as [[|] r2].
  - injection H as <- <- <-. split; [now apply charge_balanced | assumption].
  - apply IH in H; [assumption | | lia].
    rewrite handleFailReset_out; simpl. now apply charge_balanced.
Qed.

Lemma initVars_balanced : balanced params 0 (v_out (initVars params)).
Proof.
  unfold balanced, initVars; simpl.
  rewrite ArrFacts.length_fill, ArrFacts.sumZ_fill.
  split; [reflexivity | split; [reflexivity | ring]].
Qed.

(** The two arrays keep the length [numStars]: the loop writes them only
    at an index below it. *)
Lemma build_stars_lengths fuel : forall v i r v' r',
  build_stars rnd params fuel v i r = Some (v', r') ->
  length (starPityFails v) = N -> length (starAttempts (v_out v)) = N ->
  length (starPityFails v') = N /\ length (starAttempts (v_out v')) = N.
Proof.
  induction fuel as [|fuel IH]; intros v i r v' r' H Hp Ha; [discriminate|].
  simpl in H. destruct (i <? numStars params)%nat.
  - pose proof (starAttempt_out v i r) as Ho.
    assert (Hp1 : length (starPityFails (snd (fst (starAttempt rnd params v i r)))) = N).
    { unfold starAttempt.
      destruct (decide rnd _ _ r) as [[|] r1]; simpl;
        [now rewrite ArrFacts.length_set|].
      unfold handleFailReset. destruct (starPityResetsOnAnyFail params); simpl;
        [apply ArrFacts.length_fill | now rewrite ArrFacts.length_set]. }
    destruct (starAttempt rnd params v i r) as [[b v1] r1]; simpl in Ho, Hp1.
    assert (Ha1 : length (starAttempts (v_out v1)) = N)
      by (rewrite Ho; simpl; now rewrite ArrFacts.length_set).
    destruct b; eapply IH; eauto.
  - injection H as <- <-. auto.
Qed.

(** Fuel *)

Lemma build_stars_step fuel v i r :
  build_stars rnd params (S fuel) v i r =
  if (i <? numStars params)%nat then
    match starAttempt rnd params v i r with
    | (true, v', r') => build_stars rnd params fuel v' (S i) r'
    | (false, v', r') => build_stars rnd params fuel v' O r'
    end
  else Some (v, r).
Proof. reflexivity. Qed.

Lemma build_stars_mono fuel : forall fuel' v i r x,
  build_stars rnd params fuel v i r = Some x -> (fuel <= fuel')%nat ->
  build_stars rnd params fuel' v i r = Some x.
Proof.
  induction fuel as [|fuel IH]; intros fuel' v i r x H Hle; [discriminate|].
  destruct fuel' as [|fuel']; [lia|].
  simpl in *. destruct (i <? numStars params)%nat; [|exact H].
  destruct (starAttempt rnd params v i r) as [[[|] v1] r1];
    apply IH; auto; lia.
Qed.

Lemma full_loop_mono fuel : forall fuel' v fpf r x,
  full_loop rnd params fuel v fpf r = Some x -> (fuel <= fuel')%nat ->
  full_loop rnd params fuel' v fpf r = Some x.
Proof.
  induction fuel as [|fuel IH]; intros fuel' v fpf r x H Hle; [discriminate|].
  destruct fuel' as [|fuel']; [lia|].
  simpl in *.
  destruct (build_stars rnd params fuel v 0 r) as [[v1 r1]|] eqn:E;
    [|discriminate].
  rewrite (build_stars_mono _ fuel' _ _ _ _ E) by lia.
  destruct (decide rnd _ _ r1) as [[|] r2]; [exact H|].
  apply IH; auto; lia.
Qed.

Lemma simulateStarsOnly_mono r :
  monotone (fun fuel => simulateStarsOnly rnd params fuel r).
Proof.
  intros n m x H Hle. unfold simulateStarsOnly in *.
  destruct (build_stars rnd params n _ 0 r) as [[v r']|] eqn:E; [|discriminate].
  now rewrite (build_stars_mono _ m _ _ _ _ E Hle).
Qed.

Lemma simulateFullRun_mono r :
  monotone (fun fuel => simulateFullRun rnd params fuel r).
Proof.
  intros n m x H Hle. unfold simulateFullRun in *.
  destruct (full_loop rnd params n _ 0 r) as [[[o fpf] r']|] eqn:E;
    [|discriminate].
  now rewrite (full_loop_mono _ m _ _ _ _ E Hle).
Qed.

(** Draws that never succeed: non-negative draws against probabilities
    that are 0. *)

Hypothesis draws_nonneg : forall r, (0 <= fst (rnd r))%Q.

Lemma decide_zero g p r :
  (forall q, p = Some q -> (q <= 0)%Q) ->
  fst (decide rnd g p r) = g.
Proof.
  intro Hp. unfold decide. destruct g; [reflexivity|].
  pose proof (draws_nonneg r) as Hx.
  destruct (rnd r) as [x r']; simpl in *.
  destruct p as [q|]; simpl; [|reflexivity].
  unfold Qltb. specialize (Hp q eq_refl).
  assert (Hle : (q <= x)%Q) by (eapply Qle_trans; eauto).
  apply Qle_bool_iff in Hle. now rewrite Hle.
Qed.

Section Adversarial.

Hypothesis no_reset : starPityResetsOnAnyFail params = false.
Hypothesis stars_zero : Forall (fun q => q <= 0)%Q (starProbs params).
Hypothesis final_zero : (finalProb params <= 0)%Q.

Lemma star_prob_zero i q : Arr.get (starProbs params) i = Some q -> (q <= 0)%Q.
Proof.
  intro H. apply nth_error_In in H.
  now apply (proj1 (Forall_forall _ _) stars_zero).
Qed.

(** With no chance of success the simulated star phase is the
    adversarial one, step for step. *)
Lemma build_stars_adversarial fuel : forall v i r,
  option_map pityAndAttempts (build_stars rnd params fuel v i r) =
  wc_build params fuel (starPityFails v) (attempts (v_out v)) i.
Proof.
  induction fuel as [|fuel IH]; intros v i r; [reflexivity|].
  simpl. destruct (i <? numStars params)%nat; [|reflexivity].
  unfold starAttempt.
  pose proof (decide_zero
                (starPityThreshold params <=? Arr.at_ (starPityFails v) i)
                (Arr.get (starProbs params) i) r (star_prob_zero i)) as Hd.
  destruct (decide rnd _ _ r) as [b r']; simpl in Hd; subst b.
  destruct (starPityThreshold params <=? Arr.at_ (starPityFails v) i).
  - rewrite IH. reflexivity.
  - unfold handleFailReset. rewrite no_reset, IH. reflexivity.
Qed.

Lemma full_loop_adversarial fuel : forall v fpf r,
  option_map attemptsOf (full_loop rnd params fuel v fpf r) =
  wc_full_loop params fuel (starPityFails v) fpf (attempts (v_out v)).
Proof.
  induction fuel as [|fuel IH]; intros v fpf r; [reflexivity|].
  simpl. rewrite <- (build_stars_adversarial fuel v 0 r).
  destruct (build_stars rnd params fuel v 0 r) as [[v1 r1]|];
    [|reflexivity].
  simpl.
  pose proof (decide_zero (finalPityThreshold params <=? fpf)
                (Some (finalProb params)) r1) as Hd.
  destruct (decide rnd _ _ r1) as [b r2]; simpl in Hd.
  rewrite Hd by (intros q [= <-]; exact final_zero).
  destruct (finalPityThreshold params <=? fpf); [reflexivity|].
  unfold handleFailReset. rewrite no_reset, IH. reflexivity.
Qed.

(** So the full run returns, with the attempts of [worstCaseFull]. *)
Lemma simulateFullRun_adversarial r :
  exists o r',
    returns (fun fuel => simulateFullRun rnd params fuel r) (o, r') /\
    returns (worstCaseFull params) (finiteWorst params (attempts o)).
Proof.
  destruct (worstCaseFull_returns params no_reset) as [fuel0 H0].
  pose proof (H0 fuel0 (le_n _)) as Hw.
  unfold worstCaseFull in Hw. rewrite no_reset in Hw.
  pose proof (full_loop_adversarial fuel0 (initVars params) 0 r) as Ha.
  simpl in Ha.
  destruct (wc_full_loop params fuel0 _ 0 0) as [att|] eqn:Ew;
    [|discriminate].
  destruct (full_loop rnd params fuel0 (initVars params) 0 r)
    as [[[o fpf] r']|] eqn:Ef; [|discriminate].
  injection Ha as Ha. unfold attemptsOf in Ha; simpl in Ha. subst att.
  exists o, r'. split.
  - exists fuel0. intros fuel Hf. unfold simulateFullRun.
    now rewrite (full_loop_mono fuel0 fuel _ _ _ _ Ef Hf).
  - exists fuel0. intros fuel Hf. rewrite (H0 fuel Hf). symmetry. exact Hw.
Qed.

End Adversarial.

Section NeverBuilt.

Hypothesis reset : starPityResetsOnAnyFail params = true.
Hypothesis pity_pos : 1 <= starPityThreshold params.
Hypothesis some_star : (1 <= numStars params)%nat.
Hypothesis first_zero :
  forall q, Arr.get (starProbs params) 0 = Some q -> (q <= 0)%Q.

(** Every attempt on the first star fails and clears the counter it has
    just incremented: the star phase never ends. *)
Lemma build_stars_stuck fuel : forall v r,
  starPityFails v = Arr.fill (numStars params) 0 ->
  build_stars rnd params fuel v 0 r = None.
Proof.
  induction fuel as [|fuel IH]; intros v r Hv; [reflexivity|].
  simpl.
  replace (0 <? numStars params)%nat with true
    by (symmetry; apply Nat.ltb_lt; lia).
  unfold starAttempt. rewrite Hv, ArrFacts.at_fill.
  pose proof (decide_zero (starPityThreshold params <=? 0)
                (Arr.get (starProbs params) 0) r first_zero) as Hd.
  destruct (decide rnd _ _ r) as [b r']; simpl in Hd; subst b.
  replace (starPityThreshold params <=? 0) with false
    by (symmetry; apply Z.leb_gt; lia).
  apply IH. unfold handleFailReset. rewrite reset. reflexivity.
Qed.

Lemma simulateStarsOnly_stuck r :
  diverges (fun fuel => simulateStarsOnly rnd params fuel r).
Proof.
  intro fuel. unfold simulateStarsOnly.
  now rewrite build_stars_stuck.
Qed.

End NeverBuilt.

Section BelowOne.

(** Draws that always succeed against probability 1: draws below 1. *)
Hypothesis draws_below_one : forall r, (fst (rnd r) < 1)%Q.

Lemma decide_one g q r : (1 <= q)%Q -> fst (decide rnd g (Some q) r) = true.
Proof.
  intro Hq. unfold decide. destruct g; [reflexivity|].
  pose proof (draws_below_one r) as Hx.
  destruct (rnd r) as [x r']; simpl in *.
  unfold Qltb. destruct (Qle_bool q x) eqn:E; [|reflexivity].
  apply Qle_bool_iff in E. lra.
Qed.

Lemma starAttempt_one v i r q :
  Arr.get (starProbs params) i = Some q -> (1 <= q)%Q ->
  exists r',
    starAttempt rnd params v i r =
    (true,
     mkVars (countStar (charge params (v_out v)) i) (Arr.set (starPityFails v) i 0),
     r').
Proof.
  intros Hi Hq. unfold starAttempt. rewrite Hi.
  pose proof (decide_one
                (starPityThreshold params <=? Arr.at_ (starPityFails v) i) q r Hq)
    as Hd.
  destruct (decide rnd _ _ r) as [b r']; simpl in Hd; subst b.
  now exists r'.
Qed.

End BelowOne.

End SimulatorFacts.

Lemma returns_of_run {A} (f : nat -> option A) n x :
  monotone f -> f n = Some x -> returns f x.
Proof. intros Hm H. exists n. intros m Hle. now apply (Hm n). Qed.

Lemma In_firstn {A} (x : A) n : forall l, In x (firstn n l) -> In x l.
Proof.
  induction n as [|n IH]; intros [|h t]; simpl; try tauto.
  intros [H|H]; auto.
Qed.

(** ** The simulators against the worst case *)

(** C1.  For the configuration of the second diagnostic (two stars, every
    probability 0, both pity thresholds 2, no reset of pity on failure),
    [simulateFullRun] returns, and with exactly the attempts that
    [worstCaseFull] returns: on every random source whose draws are not
    negative, and so on the seeded generator for every seed. *)
Theorem zero_probability_run_is_worst_case :
  (forall (RS : Type) (rnd : RS -> Q * RS) (r : RS),
      (forall s, 0 <= fst (rnd s))%Q ->
      exists o r' w,
        returns (fun fuel => simulateFullRun rnd diag2 fuel r) (o, r') /\
        returns (worstCaseFull diag2) w /\
        wc_attempts w = Finite (attempts o))
  /\ (forall seed : Z,
        exists o r' w,
          returns (fun fuel => simulateFullRun rand diag2 fuel (createLCG seed))
                  (o, r') /\
          returns (worstCaseFull diag2) w /\
          wc_attempts w = Finite (attempts o)).
Proof.
  assert (G : forall (RS : Type) (rnd : RS -> Q * RS) (r : RS),
      (forall s, 0 <= fst (rnd s))%Q ->
      exists o r' w,
        returns (fun fuel => simulateFullRun rnd diag2 fuel r) (o, r') /\
        returns (worstCaseFull diag2) w /\
        wc_attempts w = Finite (attempts o)).
  { intros RS rnd r Hnn.
    assert (Hstars : Forall (fun q => q <= 0)%Q (starProbs diag2))
      by (repeat constructor; apply Qle_refl).
    destruct (simulateFullRun_adversarial rnd diag2 Hnn eq_refl Hstars
                (Qle_refl 0) r) as (o & r' & Hs & Hw).
    exists o, r', (finiteWorst diag2 (attempts o)). auto. }
  split; [exact G|].
  intro seed. apply G. exact rand_nonneg.
Qed.

Lemma zero_probability_run_is_worst_case_witness :
  exists o r' w,
    returns (fun fuel => simulateFullRun rand diag2 fuel (createLCG 42)) (o, r') /\
    returns (worstCaseFull diag2) w /\
    wc_attempts w = Finite (attempts o).
Proof.
  exact (proj1 zero_probability_run_is_worst_case Z rand (createLCG 42) rand_nonneg).
Defined.

(** ** Bookkeeping of the outcomes *)

(** The gold in doubles: the price added once per attempt. *)

Section DoubleFacts.

Context {RS : Type} (rnd : RS -> Q * RS).
Variable price : float.
Variable params : Params.

Lemma double_starAttempt_out v i r :
  Double.v_out (snd (fst (Double.starAttempt rnd price params v i r))) =
  Double.countStar (Double.charge price (Double.v_out v)) i.
Proof.
  unfold Double.starAttempt.
  destruct (decide rnd _ _ r) as [[|] r']; simpl; auto.
  unfold Double.handleFailReset; destruct (starPityResetsOnAnyFail params); auto.
Qed.

Lemma double_charge_accumulated o :
  Double.accumulated price o -> Double.accumulated price (Double.charge price o).
Proof.
  intros [H0 Hg]. unfold Double.accumulated, Double.charge; simpl.
  split; [lia|].
  replace (Z.to_nat (Double.attempts o + 1)) with (S (Z.to_nat (Double.attempts o)))
    by lia.
  simpl. now rewrite Hg.
Qed.

Lemma double_build_stars_accumulated fuel : forall v i r v' r',
  Double.build_stars rnd price params fuel v i r = Some (v', r') ->
  Double.accumulated price (Double.v_out v) ->
  Double.accumulated price (Double.v_out v').
Proof.
  induction fuel as [|fuel IH]; intros v i r v' r' H Ha; [discriminate|].
  simpl in H. destruct (i <? numStars params)%nat.
  - pose proof (double_starAttempt_out v i r) as Ho.
    destruct (Double.starAttempt rnd price params v i r) as [[b v1] r1];
      simpl in Ho.
    assert (Ha1 : Double.accumulated price (Double.v_out v1))
      by (rewrite Ho; apply (double_charge_accumulated _ Ha)).
    destruct b; eapply IH; eauto.
  - injection H as <- <-. exact Ha.
Qed.

Lemma double_full_loop_accumulated fuel : forall v fpf r o fpf' r',
  Double.full_loop rnd price params fuel v fpf r = Some (o, fpf', r') ->
  Double.accumulated price (Double.v_out v) ->
  Double.accumulated price o.
Proof.
  induction fuel as [|fuel IH]; intros v fpf r o fpf' r' H Ha; [discriminate|].
  simpl in H.
  destruct (Double.build_stars rnd price params fuel v 0 r) as [[v1 r1]|] eqn:E;
    [|discriminate].
  apply double_build_stars_accumulated in E; [|assumption].
  destruct (decide rnd _ _ r1) as [[|] r2].
  - injection H as <- <- <-. now apply double_charge_accumulated.
  - apply IH in H; [assumption|].
    unfold Double.handleFailReset.
    destruct (starPityResetsOnAnyFail params); simpl;
      now apply double_charge_accumulated.
Qed.

Lemma double_initVars_accumulated :
  Double.accumulated price (Double.v_out (Double.initVars params)).
Proof. split; [simpl; lia | reflexivity]. Qed.

(** The run in doubles goes the way of the exact one: the gold is never
    read. *)
Lemma double_starAttempt_same vd v i r :
  sameCounters vd v ->
  fst (fst (Double.starAttempt rnd price params vd i r))
  = fst (fst (starAttempt rnd params v i r)) /\
  sameCounters (snd (fst (Double.starAttempt rnd price params vd i r)))
               (snd (fst (starAttempt rnd params v i r))) /\
  snd (Double.starAttempt rnd price params vd i r)
  = snd (starAttempt rnd params v i r).
Proof.
  intros (Ha & Hs & Hp). unfold Double.starAttempt, starAttempt.
  rewrite Hp.
  destruct (decide rnd _ _ r) as [[|] r']; simpl.
  - repeat split; simpl; congruence.
  - unfold Double.handleFailReset, handleFailReset.
    destruct (starPityResetsOnAnyFail params); repeat split; simpl; congruence.
Qed.

Lemma double_build_stars_same fuel : forall vd v i r,
  sameCounters vd v ->
  match Double.build_stars rnd price params fuel vd i r,
        build_stars rnd params fuel v i r with
  | Some (vd', r1), Some (v', r2) => sameCounters vd' v' /\ r1 = r2
  | None, None => True
  | _, _ => False
  end.
Proof.
  induction fuel as [|fuel IH]; intros vd v i r Hs; simpl; [exact I|].
  destruct (i <? numStars params)%nat; [|auto].
  destruct (double_starAttempt_same vd v i r Hs) as (Hb & Hv & Hr).
  destruct (Double.starAttempt rnd price params vd i r) as [[bd vd1] rd1].
  destruct (starAttempt rnd params v i r) as [[b v1] r1].
  simpl in Hb, Hv, Hr. subst bd rd1.
  destruct b; now apply IH.
Qed.

Lemma double_full_loop_same fuel : forall vd v fpf r,
  sameCounters vd v ->
  match Double.full_loop rnd price params fuel vd fpf r,
        full_loop rnd params fuel v fpf r with
  | Some (od, fd, r1), Some (o, f, r2) =>
    Double.attempts od = attempts o /\
    Double.starAttempts od = starAttempts o /\ fd = f /\ r1 = r2
  | None, None => True
  | _, _ => False
  end.
Proof.
  induction fuel as [|fuel IH]; intros vd v fpf r Hs; simpl; [exact I|].
  pose proof (double_build_stars_same fuel vd v O r Hs) as Hb.
  destruct (Double.build_stars rnd price params fuel vd 0 r) as [[vd1 rd1]|];
    destruct (build_stars rnd params fuel v 0 r) as [[v1 r1]|];
    try contradiction; [|exact I].
  destruct Hb as [(Ha & Hsa & Hp) ->].
  destruct (decide rnd _ _ r1) as [[|] r2].
  - simpl. repeat split; congruence.
  - apply IH. unfold Double.handleFailReset, handleFailReset.
    destruct (starPityResetsOnAnyFail params); repeat split; simpl; congruence.
Qed.

Lemma initVars_same : sameCounters (Double.initVars params) (initVars params).
Proof. repeat split. Qed.

(** The two simulators in doubles return when the exact ones do, with the
    same attempts, the same attempts per star and the same random source
    left. *)
Lemma double_run_same_counters fuel r :
  option_map countersD (Double.simulateStarsOnly rnd price params fuel r)
  = option_map countersQ (simulateStarsOnly rnd params fuel r)
  /\ option_map countersD (Double.simulateFullRun rnd price params fuel r)
     = option_map countersQ (simulateFullRun rnd params fuel r).
Proof.
  split.
  - unfold Double.simulateStarsOnly, simulateStarsOnly.
    pose proof (double_build_stars_same fuel _ _ O r initVars_same) as H.
    destruct (Double.build_stars rnd price params fuel _ 0 r) as [[vd1 rd1]|];
      destruct (build_stars rnd params fuel _ 0 r) as [[v1 r1]|];
      try contradiction; [|reflexivity].
    destruct H as [(Ha & Hs & _) ->].
    unfold countersD, countersQ; simpl. congruence.
  - unfold Double.simulateFullRun, simulateFullRun.
    pose proof (double_full_loop_same fuel _ _ 0 r initVars_same) as H.
    destruct (Double.full_loop rnd price params fuel _ 0 r) as [[[od fd] rd1]|];
      destruct (full_loop rnd params fuel _ 0 r) as [[[o f] r1]|];
      try contradiction; [|reflexivity].
    destruct H as (Ha & Hs & _ & ->).
    unfold countersD, countersQ; simpl. congruence.
Qed.

End DoubleFacts.

(** C5, as the code has it.  The gold that [simulateStarsOnly] or
    [simulateFullRun] returns is [goldPerAttempt] added to 0 once per
    attempt, [attempts] times over, each addition rounded to a double; the
    gold of a worst-case outcome with finite attempts is the one product
    [attempts * goldPerAttempt] in doubles; and in exact arithmetic the
    accumulated sum is [attempts] times [goldPerAttempt]. *)
Theorem gold_is_price_added_per_attempt
    (RS : Type) (rnd : RS -> Q * RS) (price : float) (params : Params)
    (fuel : nat) (r : RS) :
  (forall o r',
      Double.simulateStarsOnly rnd price params fuel r = Some (o, r') ->
      Double.gold o = Double.addTimes price (Z.to_nat (Double.attempts o)))
  /\ (forall o r',
        Double.simulateFullRun rnd price params fuel r = Some (o, r') ->
        Double.gold o = Double.addTimes price (Z.to_nat (Double.attempts o)))
  /\ (forall w a,
        Double.worstCaseStarsOnly price params fuel = Some w \/
        Double.worstCaseFull price params fuel = Some w ->
        Double.wc_attempts w = Finite a ->
        Double.wc_gold w = (Double.ofZ a * price)%float)
  /\ (forall o r', simulateStarsOnly rnd params fuel r = Some (o, r') ->
        (gold o == inject_Z (attempts o) * goldPerAttempt params)%Q)
  /\ (forall o r', simulateFullRun rnd params fuel r = Some (o, r') ->
        (gold o == inject_Z (attempts o) * goldPerAttempt params)%Q).
Proof.
  split; [|split; [|split; [|split]]].
  - intros o r' H. unfold Double.simulateStarsOnly in H.
    destruct (Double.build_stars rnd price params fuel _ 0 r) as [[v r1]|] eqn:E;
      [|discriminate].
    injection H as <- <-.
    apply double_build_stars_accumulated in E;
      [apply E | apply double_initVars_accumulated].
  - intros o r' H. unfold Double.simulateFullRun in H.
    destruct (Double.full_loop rnd price params fuel _ 0 r)
      as [[[o1 fpf] r1]|] eqn:E; [|discriminate].
    injection H as <- <-.
    apply double_full_loop_accumulated in E;
      [apply E | apply double_initVars_accumulated].
  - intros w a H Ha.
    unfold Double.worstCaseStarsOnly, Double.worstCaseFull in H.
    destruct (starPityResetsOnAnyFail params).
    + destruct H as [H|H]; injection H as <-; discriminate.
    + destruct H as [H|H].
      * destruct (wc_build params fuel _ 0 0) as [[pity att]|]; [|discriminate].
        injection H as <-. simpl in *. now injection Ha as ->.
      * destruct (wc_full_loop params fuel _ 0 0) as [att|]; [|discriminate].
        injection H as <-. simpl in *. now injection Ha as ->.
  - intros o r' H. unfold simulateStarsOnly in H.
    destruct (build_stars rnd params fuel _ 0 r) as [[v r1]|] eqn:E;
      [|discriminate].
    injection H as <- <-.
    apply (build_stars_balanced rnd params 0) in E;
      [apply E | apply initVars_balanced].
  - intros o r' H. unfold simulateFullRun in H.
    destruct (full_loop rnd params fuel _ 0 r) as [[[o1 fpf] r1]|] eqn:E;
      [|discriminate].
    injection H as <- <-.
    apply full_loop_balanced in E; [apply E | apply initVars_balanced | lia].
Qed.

Lemma gold_is_price_added_per_attempt_witness :
  exists o r',
    Double.simulateFullRun rand Double.tenth diag2 100 (createLCG 42) = Some (o, r') /\
    Double.gold o = Double.addTimes Double.tenth (Z.to_nat (Double.attempts o)).
Proof.
  destruct (Double.simulateFullRun rand Double.tenth diag2 100 (createLCG 42))
    as [[o r']|] eqn:E; [|vm_compute in E; discriminate].
  exists o, r'. split; [reflexivity|].
  exact (proj1 (proj2 (gold_is_price_added_per_attempt
                         Z rand Double.tenth diag2 100 (createLCG 42)))
           o r' E).
Defined.

(** C5, as the claim has it, fails in doubles: with [goldPerAttempt] 0.1
    the full run of the second diagnostic takes 39 attempts and returns the
    gold 3.900000000000002, where [attempts * goldPerAttempt] is
    3.9000000000000004. *)
Lemma gold_is_not_the_product_at_a_tenth :
  exists o r',
    Double.simulateFullRun rand Double.tenth diag2 100 (createLCG 42) = Some (o, r') /\
    Double.attempts o = 39 /\
    Double.gold o = 0x1.f333333333338p+1%float /\
    (Double.ofZ (Double.attempts o) * Double.tenth)%float
    = 0x1.f333333333334p+1%float /\
    PrimFloat.eqb (Double.gold o)
                  (Double.ofZ (Double.attempts o) * Double.tenth) = false.
Proof.
  destruct (Double.simulateFullRun rand Double.tenth diag2 100 (createLCG 42))
    as [[o r']|] eqn:E; [|vm_compute in E; discriminate].
  exists o, r'. split; [reflexivity|].
  vm_compute in E. injection E as <- <-.
  repeat split; vm_compute; reflexivity.
Qed.

(** C10.  Whatever [simulateStarsOnly] returns has [starAttempts] summing to
    its [attempts]; whatever [simulateFullRun] returns has [attempts] equal
    to that sum plus the number of final attempts made, which is
    [finalPityFails + 1] at the return (the failed ones and the successful
    one) and so at least 1. *)
Theorem attempts_are_star_attempts_plus_finals
    (RS : Type) (rnd : RS -> Q * RS) (params : Params) (fuel : nat) (r : RS) :
  (forall o r', simulateStarsOnly rnd params fuel r = Some (o, r') ->
     Arr.sumZ (starAttempts o) = attempts o)
  /\ (forall o r', simulateFullRun rnd params fuel r = Some (o, r') ->
     exists finals : Z,
       1 <= finals /\
       full_loop rnd params fuel (initVars params) 0 r = Some (o, finals - 1, r') /\
       attempts o = Arr.sumZ (starAttempts o) + finals).
Proof.
  split.
  - intros o r' H. unfold simulateStarsOnly in H.
    destruct (build_stars rnd params fuel _ 0 r) as [[v r1]|] eqn:E;
      [|discriminate].
    injection H as <- <-.
    apply (build_stars_balanced rnd params 0) in E;
      [|apply initVars_balanced].
    destruct E as (_ & E & _). lia.
  - intros o r' H. unfold simulateFullRun in H.
    destruct (full_loop rnd params fuel _ 0 r) as [[[o1 fpf] r1]|] eqn:E;
      [|discriminate].
    injection H as <- <-.
    exists (fpf + 1).
    pose proof (full_loop_balanced rnd params _ _ _ _ _ _ _ E
                  (initVars_balanced params) (Z.le_refl 0)) as [(_ & Hb & _) Hf].
    replace (fpf + 1 - 1) with fpf by lia.
    repeat split; [lia | assumption].
Qed.

Lemma attempts_are_star_attempts_plus_finals_witness :
  exists o r' finals,
    simulateFullRun rand diag2 100 (createLCG 42) = Some (o, r') /\
    1 <= finals /\
    attempts o = Arr.sumZ (starAttempts o) + finals.
Proof.
  destruct (simulateFullRun rand diag2 100 (createLCG 42)) as [[o r']|] eqn:E;
    [|vm_compute in E; discriminate].
  destruct (proj2 (attempts_are_star_attempts_plus_finals
                     Z rand diag2 100 (createLCG 42)) o r' E)
    as (finals & H1 & _ & H2).
  exists o, r', finals. auto.
Defined.

(** ** The seeded generator and probability 1 *)

(** Every draw of the generator is in the closed interval from 0 to 1. *)
Lemma lcg_draw_range seed n : (0 <= lcg_draw seed n <= 1)%Q.
Proof. unfold lcg_draw. apply rand_range. Qed.

(** C4.  The draws are not all below 1: the generator seeded with
    [seedOfOne] moves to the state [0xffffffff] on its first call, and the
    draw [state / 0xffffffff] is then exactly 1. *)
Theorem first_draw_can_be_one :
  lcg_state seedOfOne 1 = 4294967295 /\
  (lcg_draw seedOfOne 0 == 1)%Q /\
  ~ (lcg_draw seedOfOne 0 < 1)%Q.
Proof.
  split; [reflexivity|]. split; [reflexivity|].
  intro H. vm_compute in H. discriminate.
Qed.

(** The first diagnostic, as the application runs it (seed 1): the two
    runs take 3 and 4 attempts, one per star. *)
Lemma diag1_seed_1 :
  exists o1 r1 o2 r2,
    returns (fun fuel => simulateStarsOnly rand diag1 fuel (createLCG 1)) (o1, r1) /\
    returns (fun fuel => simulateFullRun rand diag1 fuel r1) (o2, r2) /\
    attempts o1 = 3 /\ starAttempts o1 = [1; 1; 1] /\
    attempts o2 = 4 /\ starAttempts o2 = [1; 1; 1].
Proof.
  destruct (simulateStarsOnly rand diag1 10 (createLCG 1)) as [[o1 r1]|] eqn:E1;
    [|vm_compute in E1; discriminate].
  destruct (simulateFullRun rand diag1 10 r1) as [[o2 r2]|] eqn:E2;
    [|vm_compute in E1; injection E1 as <- <-; vm_compute in E2; discriminate].
  exists o1, r1, o2, r2.
  split; [apply (returns_of_run _ 10), E1; apply simulateStarsOnly_mono|].
  split; [apply (returns_of_run _ 10), E2; apply simulateFullRun_mono|].
  vm_compute in E1; injection E1 as <- <-.
  vm_compute in E2; injection E2 as <- <-.
  repeat split.
Qed.

(** The first diagnostic on any random source whose draws are below 1:
    every attempt succeeds. *)
Lemma diag1_below_one {RS} (rnd : RS -> Q * RS) (r : RS) :
  (forall s, (fst (rnd s) < 1)%Q) ->
  exists o1 r1 o2 r2,
    returns (fun fuel => simulateStarsOnly rnd diag1 fuel r) (o1, r1) /\
    returns (fun fuel => simulateFullRun rnd diag1 fuel r1) (o2, r2) /\
    attempts o1 = 3 /\ starAttempts o1 = [1; 1; 1] /\
    attempts o2 = 4 /\ starAttempts o2 = [1; 1; 1].
Proof.
  intro Hlt.
  assert (B : forall s,
             exists v' s',
               build_stars rnd diag1 4 (initVars diag1) O s = Some (v', s') /\
               attempts (v_out v') = 3 /\
               starAttempts (v_out v') = [1; 1; 1]).
  { intros s. set (v := initVars diag1).
    destruct (starAttempt_one rnd diag1 Hlt v 0 s 1 eq_refl (Qle_refl 1))
      as [s1 E1].
    set (v1 := mkVars _ _) in E1.
    destruct (starAttempt_one rnd diag1 Hlt v1 1 s1 1 eq_refl (Qle_refl 1))
      as [s2 E2].
    set (v2 := mkVars _ _) in E2.
    destruct (starAttempt_one rnd diag1 Hlt v2 2 s2 1 eq_refl (Qle_refl 1))
      as [s3 E3].
    set (v3 := mkVars _ _) in E3.
    exists v3, s3.
    rewrite build_stars_step; cbn [Nat.ltb Nat.leb numStars diag1]; rewrite E1.
    rewrite build_stars_step; cbn [Nat.ltb Nat.leb numStars diag1]; rewrite E2.
    rewrite build_stars_step; cbn [Nat.ltb Nat.leb numStars diag1]; rewrite E3.
    rewrite build_stars_step; cbn [Nat.ltb Nat.leb numStars diag1].
    split; [reflexivity|].
    split; reflexivity. }
  destruct (B r) as (v1 & r1 & E1 & A1 & S1).
  destruct (B r1) as (v2 & r1' & E2 & A2 & S2).
  destruct (decide rnd (finalPityThreshold diag1 <=? 0)
              (Some (finalProb diag1)) r1') as [b r2'] eqn:Ed'.
  assert (Hb : b = true).
  { pose proof (decide_one rnd Hlt (finalPityThreshold diag1 <=? 0) 1 r1'
                  (Qle_refl 1)) as Hd.
    change (Some 1%Q) with (Some (finalProb diag1)) in Hd.
    rewrite Ed' in Hd. exact Hd. }
  subst b.
  exists (v_out v1), r1, (charge diag1 (v_out v2)), r2'.
  split; [|split].
  - apply (returns_of_run _ 4); [apply simulateStarsOnly_mono|].
    unfold simulateStarsOnly. now rewrite E1.
  - apply (returns_of_run _ 5); [apply simulateFullRun_mono|].
    unfold simulateFullRun. cbn [full_loop]. rewrite E2, Ed'. reflexivity.
  - simpl. rewrite A1, A2, S1, S2. simpl. repeat split.
Qed.

(** C6.  With three stars and every probability 1, the runs are not the
    same for every seed: seeded with [seedOfOne], the first draw is 1, the
    test [1 < 1] fails the first attempt, and [simulateStarsOnly] returns
    4 attempts, 2 of them on the first star. *)
Theorem probability_one_can_fail :
  exists o r',
    returns (fun fuel => simulateStarsOnly rand diag1 fuel (createLCG seedOfOne))
            (o, r') /\
    attempts o = 4 /\ starAttempts o = [2; 1; 1].
Proof.
  destruct (simulateStarsOnly rand diag1 10 (createLCG seedOfOne))
    as [[o r']|] eqn:E; [|vm_compute in E; discriminate].
  exists o, r'.
  split; [apply (returns_of_run _ 10), E; apply simulateStarsOnly_mono|].
  vm_compute in E; injection E as <- <-. split; reflexivity.
Qed.

(** ** Probabilities 0 with pity cleared on every failure *)

Lemma trials_loop_first_stuck fuel params n rng b :
  simulateStarsOnly rand params fuel rng = None ->
  trials_loop fuel params (S n) rng b = None.
Proof. intro H. simpl. now rewrite H. Qed.

Lemma formParams_stuck (ui : Params) :
  starPityResetsOnAnyFail ui = true ->
  Forall (fun q => q == 0)%Q (starProbs ui) ->
  (1 <= numStars ui)%nat ->
  1 <= starPityThreshold ui ->
  forall rng,
    diverges (fun fuel => simulateStarsOnly rand (formParams ui) fuel rng).
Proof.
  intros Hr Hp Hn Ht rng.
  apply simulateStarsOnly_stuck; auto using rand_nonneg.
  intros q Hq. apply nth_error_In in Hq. simpl in Hq. apply In_firstn in Hq.
  rewrite (proj1 (Forall_forall _ _) Hp q Hq). apply Qle_refl.
Qed.

Lemma runSimulation_stuck (ui : Params) (trials : nat) (seed : Z) :
  (forall rng,
      diverges (fun fuel => simulateStarsOnly rand (formParams ui) fuel rng)) ->
  (1 <= trials)%nat ->
  diverges (fun fuel => runSimulation fuel ui trials seed).
Proof.
  intros D Htr fuel. unfold runSimulation.
  destruct trials as [|n]; [lia|].
  now rewrite trials_loop_first_stuck by apply D.
Qed.

(** C3, as the code has it.  With [starPityResetsOnAnyFail] set and every
    probability exactly 0 (at least one star, a star pity threshold of at
    least 1, at least one trial), nothing fails fast: for every seed the
    [simulateStarsOnly] of the first trial never returns, and so
    [runSimulation] never returns anything.  On the same parameters the two
    worst-case calculators, called on their own, return the unbounded
    outcome: [Infinity] for the attempts and for the gold. *)
Theorem zero_probabilities_with_reset_never_return
    (ui : Params) (trials : nat) (seed : Z) :
  starPityResetsOnAnyFail ui = true ->
  Forall (fun q => q == 0)%Q (starProbs ui) ->
  (finalProb ui == 0)%Q ->
  (1 <= numStars ui)%nat ->
  1 <= starPityThreshold ui ->
  (1 <= trials)%nat ->
  diverges (fun fuel =>
              simulateStarsOnly rand (formParams ui) fuel (createLCG (formSeed seed)))
  /\ diverges (fun fuel => runSimulation fuel ui trials seed)
  /\ (forall fuel,
        worstCaseStarsOnly (formParams ui) fuel = Some (mkWorst Infinity Infinity) /\
        worstCaseFull (formParams ui) fuel = Some (mkWorst Infinity Infinity)).
Proof.
  intros Hr Hp _ Hn Ht Htr.
  pose proof (formParams_stuck ui Hr Hp Hn Ht) as D.
  split; [apply D|]. split; [now apply runSimulation_stuck|].
  intro fuel. unfold worstCaseStarsOnly, worstCaseFull.
  simpl starPityResetsOnAnyFail. rewrite Hr. split; reflexivity.
Qed.

Lemma zero_probabilities_with_reset_never_return_witness :
  diverges (fun fuel => runSimulation fuel stuckForm 100 12345)
  /\ worstCaseFull (formParams stuckForm) 0 = Some (mkWorst Infinity Infinity).
Proof.
  refine ((fun H => conj (proj1 (proj2 H)) (proj2 (proj2 (proj2 H) O)))
            (zero_probabilities_with_reset_never_return
               stuckForm 100 12345 eq_refl _ _ _ _ _)).
  - repeat constructor; reflexivity.
  - reflexivity.
  - simpl; lia.
  - simpl; lia.
  - lia.
Defined.

(** C3, as the claim has it, fails on [stuckForm]: no fuel makes
    [runSimulation] return anything, be it a result or a report. *)
Lemma no_fail_fast_on_stuckForm :
  ~ exists fuel res, runSimulation fuel stuckForm 100 12345 = Some res.
Proof.
  intros (fuel & res & H).
  assert (D : diverges (fun fuel => runSimulation fuel stuckForm 100 12345)).
  { apply runSimulation_stuck; [|lia].
    apply formParams_stuck; simpl; try lia; auto.
    repeat constructor; reflexivity. }
  rewrite (D fuel) in H. discriminate.
Qed.

(** ** Sorting *)

Section SortByFacts.

Context {A : Type} (key : A -> Q).

Let leKey (a b : A) : Prop := (key a <= key b)%Q.

Lemma In_insert_by x e : forall l, In e (insert_by key x l) <-> e = x \/ In e l.
Proof.
  induction l as [|y t IH]; simpl.
  - intuition.
  - destruct (Qle_bool (key x) (key y)); simpl; rewrite ?IH; intuition.
Qed.

Lemma In_sort_by e : forall l, In e (sort_by key l) <-> In e l.
Proof.
  induction l as [|x t IH]; simpl; [tauto|].
  rewrite In_insert_by, IH. intuition.
Qed.

Lemma length_insert_by x : forall l, length (insert_by key x l) = S (length l).
Proof.
  induction l as [|y t IH]; simpl; auto.
  destruct (Qle_bool (key x) (key y)); simpl; auto.
Qed.

Lemma length_sort_by : forall l, length (sort_by key l) = length l.
Proof.
  induction l as [|x t IH]; simpl; auto.
  now rewrite length_insert_by, IH.
Qed.

Lemma insert_by_sorted x : forall l,
  StronglySorted leKey l -> StronglySorted leKey (insert_by key x l).
Proof.
  induction l as [|y t IH]; intro Hs; simpl.
  - repeat constructor.
  - apply StronglySorted_inv in Hs as [Ht Hy].
    destruct (Qle_bool (key x) (key y)) eqn:E.
    + apply Qle_bool_iff in E.
      constructor; [constructor; assumption|].
      constructor; [exact E|].
      apply Forall_forall. intros e He.
      unfold leKey. eapply Qle_trans; [exact E|].
      exact (proj1 (Forall_forall _ _) Hy e He).
    + assert (Hyx : (key y <= key x)%Q).
      { destruct (Qlt_le_dec (key y) (key x)) as [H|H];
          [now apply Qlt_le_weak|].
        apply Qle_bool_iff in H. congruence. }
      constructor; [now apply IH|].
      apply Forall_forall. intros e He.
      apply In_insert_by in He as [->|He]; [exact Hyx|].
      exact (proj1 (Forall_forall _ _) Hy e He).
Qed.

Lemma sort_by_sorted : forall l, StronglySorted leKey (sort_by key l).
Proof.
  induction l as [|x t IH]; simpl; [constructor|].
  now apply insert_by_sorted.
Qed.

End SortByFacts.

Lemma sort_num_sorted l : StronglySorted Qle (sort_num l).
Proof. exact (sort_by_sorted (fun x => x) l). Qed.

Lemma sorted_nth l : StronglySorted Qle l ->
  forall i j, (i <= j < length l)%nat -> (nth i l 0 <= nth j l 0)%Q.
Proof.
  induction 1 as [|a l Hs IH Ha]; intros i j Hij; simpl in *; [lia|].
  destruct i as [|i], j as [|j]; try lia.
  - apply Qle_refl.
  - apply (proj1 (Forall_forall _ _) Ha). apply nth_In. lia.
  - apply IH. lia.
Qed.

(** ** Percentile *)

Lemma percentile_nonempty l p : l <> [] ->
  percentile l p =
  let pos := (inject_Z (Z.of_nat (length l) - 1) * p)%Q in
  let base := Qfloor pos in
  let rest := (pos - inject_Z base)%Q in
  match Arr.getZ l (base + 1) with
  | Some hi =>
    match Arr.getZ l base with
    | Some lo => Some (lo + rest * (hi - lo))%Q
    | None => None
    end
  | None => Arr.getZ l base
  end.
Proof. destruct l; [congruence | reflexivity]. Qed.

Section PercentileFacts.

Variable l : list Q.
Hypothesis nonempty : l <> [].
Hypothesis sorted : StronglySorted Qle l.

Let m : Z := Z.of_nat (length l) - 1.

Lemma last_index : 0 <= m.
Proof. unfold m. destruct l; [congruence | simpl length; lia]. Qed.

Lemma getZ_inside z : 0 <= z <= m -> Arr.getZ l z = Some (nthQ l z).
Proof.
  intro H. unfold Arr.getZ, nthQ.
  replace (z <? 0) with false by (symmetry; apply Z.ltb_ge; lia).
  apply nth_error_nth'. unfold m in H. lia.
Qed.

Lemma getZ_outside z : m < z -> Arr.getZ l z = None.
Proof.
  intro H. unfold Arr.getZ.
  pose proof last_index.
  replace (z <? 0) with false by (symmetry; apply Z.ltb_ge; lia).
  apply nth_error_None. unfold m in H. lia.
Qed.

Lemma nthQ_mono i j : 0 <= i <= j -> j <= m -> (nthQ l i <= nthQ l j)%Q.
Proof.
  intros Hi Hj. unfold nthQ. apply sorted_nth; [assumption|].
  unfold m in Hj. lia.
Qed.

(** The position of [p] and its integer part stay inside the array. *)
Lemma position_range p : (0 <= p)%Q -> (p <= 1)%Q ->
  let pos := (inject_Z m * p)%Q in
  (0 <= pos)%Q /\ (pos <= inject_Z m)%Q /\ 0 <= Qfloor pos <= m.
Proof.
  intros H0 H1 pos.
  assert (Hm : (0 <= inject_Z m)%Q)
    by (change 0%Q with (inject_Z 0); rewrite <- Zle_Qle; apply last_index).
  assert (Ha : (0 <= pos)%Q) by (unfold pos; nra).
  assert (Hb : (pos <= inject_Z m)%Q) by (unfold pos; nra).
  repeat split; try assumption.
  - change 0 with (Qfloor 0). now apply Qfloor_resp_le.
  - rewrite <- (Qfloor_Z m). now apply Qfloor_resp_le.
Qed.

(** The value of [percentile] for [p] between 0 and 1. *)
Lemma percentile_inside p : (0 <= p)%Q -> (p <= 1)%Q ->
  let pos := (inject_Z m * p)%Q in
  let base := Qfloor pos in
  percentile l p =
  Some (if base <? m
        then nthQ l base + (pos - inject_Z base) * (nthQ l (base + 1) - nthQ l base)
        else nthQ l base)%Q.
Proof.
  intros H0 H1 pos base.
  destruct (position_range p H0 H1) as (_ & _ & Hb). fold pos base in Hb.
  rewrite percentile_nonempty by assumption. cbv zeta. fold m pos base.
  destruct (base <? m) eqn:E.
  - apply Z.ltb_lt in E.
    rewrite !getZ_inside by lia. reflexivity.
  - apply Z.ltb_ge in E.
    rewrite getZ_outside by lia. apply getZ_inside. lia.
Qed.

Lemma percentile_mono p q :
  (0 <= p)%Q -> (p <= q)%Q -> (q <= 1)%Q ->
  ole (percentile l p) (percentile l q).
Proof.
  intros H0 Hpq H1.
  assert (Hp1 : (p <= 1)%Q) by (eapply Qle_trans; eauto).
  assert (Hq0 : (0 <= q)%Q) by (eapply Qle_trans; eauto).
  rewrite (percentile_inside p H0 Hp1), (percentile_inside q Hq0 H1).
  destruct (position_range p H0 Hp1) as (_ & _ & Hbp).
  destruct (position_range q Hq0 H1) as (_ & _ & Hbq).
  assert (Hm : (0 <= inject_Z m)%Q)
    by (change 0%Q with (inject_Z 0); rewrite <- Zle_Qle; apply last_index).
  set (pp := (inject_Z m * p)%Q) in *. set (pq := (inject_Z m * q)%Q) in *.
  assert (Hpos : (pp <= pq)%Q) by (unfold pp, pq; nra).
  pose proof (Qfloor_resp_le _ _ Hpos) as Hb.
  pose proof (Qfloor_le pp) as Lp. pose proof (Qlt_floor pp) as Up.
  pose proof (Qfloor_le pq) as Lq. pose proof (Qlt_floor pq) as Uq.
  rewrite inject_Z_plus in Up, Uq.
  set (bp := Qfloor pp) in *. set (bq := Qfloor pq) in *.
  change (inject_Z 1) with 1%Q in Up, Uq.
  simpl.
  destruct (Z.eq_dec bp bq) as [Heq|Hne].
  - rewrite <- Heq in *. destruct (bp <? m) eqn:E; [|apply Qle_refl].
    apply Z.ltb_lt in E.
    pose proof (nthQ_mono bp (bp + 1) ltac:(lia) ltac:(lia)) as Hs.
    nra.
  - assert (Hlt : bp < bq) by lia.
    replace (bp <? m) with true by (symmetry; apply Z.ltb_lt; lia).
    pose proof (nthQ_mono bp (bp + 1) ltac:(lia) ltac:(lia)) as Hs.
    pose proof (nthQ_mono (bp + 1) bq ltac:(lia) ltac:(lia)) as Hmid.
    apply Qle_trans with (nthQ l (bp + 1)); [nra|].
    apply Qle_trans with (nthQ l bq); [assumption|].
    destruct (bq <? m) eqn:E; [|apply Qle_refl].
    apply Z.ltb_lt in E.
    pose proof (nthQ_mono bq (bq + 1) ltac:(lia) ltac:(lia)) as Hs'.
    nra.
Qed.

End PercentileFacts.

(** The percentiles of a summary are in order, whatever the batch. *)
Lemma percentile_mono_sorted samples p q :
  (0 <= p)%Q -> (p <= q)%Q -> (q <= 1)%Q ->
  ole (percentile (sort_num samples) p) (percentile (sort_num samples) q).
Proof.
  intros H0 Hpq H1.
  destruct samples as [|x t] eqn:E.
  - simpl. apply Qle_refl.
  - rewrite <- E. apply percentile_mono; auto using sort_num_sorted.
    intro Hnil. apply (f_equal (@length Q)) in Hnil.
    unfold sort_num in Hnil. rewrite length_sort_by, E in Hnil. discriminate.
Qed.




(** ** Histogram *)

Section StrictSort.

Context {A : Type} (key : A -> Q).

Let ltKey (a b : A) : Prop := (key a < key b)%Q.

Lemma insert_by_strict x : forall l,
  StronglySorted ltKey l ->
  (forall e, In e l -> ~ (key e == key x)%Q) ->
  StronglySorted ltKey (insert_by key x l).
Proof.
  induction l as [|y t IH]; intros Hs Hd; simpl.
  - repeat constructor.
  - apply StronglySorted_inv in Hs as [Ht Hy].
    assert (Hxy : ~ (key y == key x)%Q) by (apply Hd; now left).
    destruct (Qle_bool (key x) (key y)) eqn:E.
    + apply Qle_bool_iff in E.
      assert (Hlt : (key x < key y)%Q) by lra.
      constructor; [constructor; assumption|].
      constructor; [exact Hlt|].
      apply Forall_forall. intros e He.
      pose proof (proj1 (Forall_forall _ _) Hy e He) as H.
      unfold ltKey in *. lra.
    + assert (Hyx : (key y < key x)%Q).
      { destruct (Qlt_le_dec (key y) (key x)) as [H|H]; [assumption|].
        apply Qle_bool_iff in H. congruence. }
      constructor.
      * apply IH; [assumption|]. intros e He. apply Hd. now right.
      * apply Forall_forall. intros e He.
        apply In_insert_by in He as [->|He]; [exact Hyx|].
        exact (proj1 (Forall_forall _ _) Hy e He).
Qed.

Lemma sort_by_strict : forall l,
  distinctKeys key l -> StronglySorted ltKey (sort_by key l).
Proof.
  induction l as [|x t IH]; intros Hd; simpl; [constructor|].
  destruct Hd as [Hx Ht].
  apply insert_by_strict; [now apply IH|].
  intros e He. apply Hx. now apply In_sort_by in He.
Qed.

End StrictSort.

Lemma sorted_map {A B} (f : A -> B) (R : B -> B -> Prop) l :
  StronglySorted (fun a b => R (f a) (f b)) l -> StronglySorted R (map f l).
Proof.
  induction 1 as [|a l Hs IH Ha]; simpl; constructor; auto.
  apply Forall_forall. intros b Hb.
  apply in_map_iff in Hb as (e & <- & He).
  exact (proj1 (Forall_forall _ _) Ha e He).
Qed.

Lemma sumCounts_cons e m : sumCounts (e :: m) = snd e + sumCounts m.
Proof. unfold sumCounts; simpl map. apply ArrFacts.sumZ_cons. Qed.

Lemma sumCounts_insert_by x : forall m,
  sumCounts (insert_by fst x m) = snd x + sumCounts m.
Proof.
  induction m as [|y t IH]; simpl; [apply sumCounts_cons|].
  destruct (Qle_bool (fst x) (fst y)).
  - now rewrite !sumCounts_cons.
  - rewrite !sumCounts_cons, IH. lia.
Qed.

Lemma sumCounts_sort_by : forall m, sumCounts (sort_by fst m) = sumCounts m.
Proof.
  induction m as [|x t IH]; simpl; [reflexivity|].
  now rewrite sumCounts_insert_by, sumCounts_cons, IH.
Qed.

Module JsMapFacts.

(** Turn the boolean key tests of the context into (in)equations. *)
Ltac keys :=
  repeat match goal with
         | H : Qeq_bool _ _ = true |- _ => apply Qeq_bool_iff in H
         | H : Qeq_bool _ _ = false |- _ => apply Qeq_bool_neq in H
         end.

Lemma get_set m k v k' :
  JsMap.get (JsMap.set m k v) k' =
  if Qeq_bool k k' then Some v else JsMap.get m k'.
Proof.
  induction m as [|[k0 v0] t IH]; simpl.
  - reflexivity.
  - destruct (Qeq_bool k0 k) eqn:E0; simpl.
    + destruct (Qeq_bool k0 k') eqn:E1, (Qeq_bool k k') eqn:E2;
        try reflexivity; keys; lra.
    + rewrite IH.
      destruct (Qeq_bool k0 k') eqn:E1, (Qeq_bool k k') eqn:E2;
        try reflexivity; keys; lra.
Qed.

Lemma sumCounts_set m k v :
  sumCounts (JsMap.set m k v) = sumCounts m - orZero (JsMap.get m k) + v.
Proof.
  induction m as [|[k0 v0] t IH]; simpl.
  - unfold sumCounts, Arr.sumZ; simpl. lia.
  - destruct (Qeq_bool k0 k); rewrite !sumCounts_cons; simpl; [lia|].
    rewrite IH. lia.
Qed.

Lemma In_set m k v e :
  In e (JsMap.set m k v) -> fst e = k \/ exists e', In e' m /\ fst e' = fst e.
Proof.
  induction m as [|[k0 v0] t IH]; simpl.
  - intros [<-|[]]. now left.
  - destruct (Qeq_bool k0 k); simpl.
    + intros [<-|H]; right;
        [exists (k0, v0) | exists e]; simpl; auto.
    + intros [<-|H].
      * right. exists (k0, v0); simpl; auto.
      * destruct (IH H) as [Hk|(e' & He' & Hk)]; [now left|].
        right. exists e'; auto.
Qed.

Lemma distinctKeys_set m k v :
  distinctKeys fst m -> distinctKeys fst (JsMap.set m k v).
Proof.
  induction m as [|[k0 v0] t IH]; simpl.
  - intros _. split; [intros e []|exact I].
  - intros [H0 Ht]. destruct (Qeq_bool k0 k) eqn:E; simpl.
    + split; assumption.
    + split; [|now apply IH].
      intros e He. apply In_set in He as [->|(e' & He' & <-)].
      * keys. lra.
      * now apply H0.
Qed.

Lemma get_In m k c :
  distinctKeys fst m -> In (k, c) m -> JsMap.get m k = Some c.
Proof.
  induction m as [|[k0 v0] t IH]; simpl; [tauto|].
  intros [H0 Ht] [[= -> ->]|H].
  - now rewrite Qeq_bool_refl.
  - destruct (Qeq_bool k0 k) eqn:E; [|now apply IH].
    keys. exfalso. apply (H0 (k, c) H). simpl. lra.
Qed.

Lemma In_get m k c :
  JsMap.get m k = Some c -> exists k', In (k', c) m /\ (k' == k)%Q.
Proof.
  induction m as [|[k0 v0] t IH]; simpl; [discriminate|].
  destruct (Qeq_bool k0 k) eqn:E.
  - intros [= ->]. keys. exists k0. auto.
  - intro H. destruct (IH H) as (k' & Hk & He). exists k'. auto.
Qed.

End JsMapFacts.

Section HistogramFacts.

Variable binSize : Q.

Lemma countBin_nonneg arr k : 0 <= countBin binSize arr k.
Proof. unfold countBin. lia. Qed.

Lemma countBin_snoc done v k :
  countBin binSize (done ++ [v]) k =
  countBin binSize done k + (if Qeq_bool (binOf binSize v) k then 1 else 0).
Proof.
  unfold countBin. rewrite filter_app, length_app. simpl.
  destruct (Qeq_bool (binOf binSize v) k); simpl; lia.
Qed.

Lemma countBin_compat arr k k' :
  (k == k')%Q -> countBin binSize arr k = countBin binSize arr k'.
Proof.
  intro H. unfold countBin. do 2 f_equal.
  apply filter_ext. intro v. now rewrite H.
Qed.

Lemma countBin_In arr v : In v arr -> 0 < countBin binSize arr (binOf binSize v).
Proof.
  intro H. unfold countBin.
  assert (Hf : In v (filter (fun w => Qeq_bool (binOf binSize w) (binOf binSize v)) arr))
    by (apply filter_In; split; [assumption | apply Qeq_bool_refl]).
  destruct (filter _ arr); [destruct Hf | simpl; lia].
Qed.

Lemma binsOf_nil : binsOf binSize [] [].
Proof.
  repeat split; simpl; auto. intros e [].
Qed.

(** One iteration of the loop of [makeHistogram]. *)
Lemma binsOf_step done m v :
  binsOf binSize done m ->
  binsOf binSize (done ++ [v])
         (JsMap.set m (binOf binSize v)
                    (orZero (JsMap.get m (binOf binSize v)) + 1)).
Proof.
  intros (Hget & Hd & Hk & Hsum).
  assert (Hz : orZero (JsMap.get m (binOf binSize v))
               = countBin binSize done (binOf binSize v)).
  { rewrite Hget.
    destruct (countBin binSize done (binOf binSize v) =? 0) eqn:E; simpl;
      [apply Z.eqb_eq in E; lia | reflexivity]. }
  repeat split.
  - intro k. rewrite JsMapFacts.get_set, countBin_snoc, Hz.
    destruct (Qeq_bool (binOf binSize v) k) eqn:E.
    + apply Qeq_bool_iff in E.
      rewrite (countBin_compat done _ _ E).
      pose proof (countBin_nonneg done k).
      replace (countBin binSize done k + 1 =? 0) with false
        by (symmetry; apply Z.eqb_neq; lia).
      reflexivity.
    + rewrite Hget, Z.add_0_r. reflexivity.
  - now apply JsMapFacts.distinctKeys_set.
  - intros e He. apply JsMapFacts.In_set in He as [->|(e' & He' & <-)].
    + exists v. split; [apply in_or_app; right; now left | reflexivity].
    + destruct (Hk e' He') as (w & Hw & Hew).
      exists w. split; [apply in_or_app; now left | assumption].
  - rewrite JsMapFacts.sumCounts_set, Hsum, length_app. simpl. lia.
Qed.

Lemma binsOf_fillBins arr : forall done m,
  binsOf binSize done m -> binsOf binSize (done ++ arr) (fillBins binSize arr m).
Proof.
  induction arr as [|v arr IH]; intros done m H; simpl.
  - now rewrite app_nil_r.
  - replace (done ++ v :: arr) with ((done ++ [v]) ++ arr)
      by (rewrite <- app_assoc; reflexivity).
    apply IH. now apply binsOf_step.
Qed.

Lemma binsOf_entry done m e :
  binsOf binSize done m -> In e m ->
  0 < snd e /\ snd e = countBin binSize done (fst e).
Proof.
  intros (Hget & Hd & _ & _) He. destruct e as [k c].
  pose proof (JsMapFacts.get_In m k c Hd He) as H.
  rewrite Hget in H. simpl.
  pose proof (countBin_nonneg done k).
  destruct (countBin binSize done k =? 0) eqn:E; [discriminate|].
  apply Z.eqb_neq in E. injection H as <-. lia.
Qed.

Lemma binsOf_sample done m v :
  binsOf binSize done m -> In v done ->
  exists e, In e m /\ (fst e == binOf binSize v)%Q.
Proof.
  intros (Hget & _ & _ & _) Hv.
  pose proof (countBin_In done v Hv) as Hc.
  specialize (Hget (binOf binSize v)).
  replace (countBin binSize done (binOf binSize v) =? 0) with false in Hget
    by (symmetry; apply Z.eqb_neq; lia).
  apply JsMapFacts.In_get in Hget as (k' & Hin & Hk).
  eexists; split; [exact Hin | exact Hk].
Qed.

Lemma binOf_bounds v : (0 < binSize)%Q ->
  (binOf binSize v <= v /\ v < binOf binSize v + binSize)%Q.
Proof.
  intro Hb. unfold binOf.
  pose proof (Qfloor_le (v / binSize)) as L.
  pose proof (Qlt_floor (v / binSize)) as U.
  rewrite inject_Z_plus in U. change (inject_Z 1) with 1%Q in U.
  assert (E : (v == v / binSize * binSize)%Q) by (field; lra).
  set (q := (v / binSize)%Q) in *. set (f := inject_Z (Qfloor q)) in *.
  split; nra.
Qed.

End HistogramFacts.

(** C9.  For a positive bin size, [makeHistogram] puts every sample [v] in
    the bin that starts at [floor(v / binSize) * binSize], which is at or
    below [v] and less than [binSize] below it; every bin it returns holds
    the (non-zero) number of samples that fall in it; the bins are in
    strictly ascending order of their start; their runs sum to the number
    of samples; and the samples 3, 3, 7, 12 with bin size 5 give the bins
    (0, 2), (5, 1), (10, 1). *)
Theorem makeHistogram_bins (arr : list Q) (binSize : Q) :
  (0 < binSize)%Q ->
  let h := makeHistogram arr binSize in
  (forall v, In v arr ->
     exists b, In b h /\
               (bin_attempts b == binOf binSize v)%Q /\
               (bin_attempts b <= v)%Q /\ (v < bin_attempts b + binSize)%Q)
  /\ (forall b, In b h ->
        0 < bin_runs b /\
        bin_runs b = countBin binSize arr (bin_attempts b))
  /\ StronglySorted (fun a b => bin_attempts a < bin_attempts b)%Q h
  /\ sumRuns h = Z.of_nat (length arr)
  /\ makeHistogram [3%Q; 3%Q; 7%Q; 12%Q] 5 = [mkBin 0 2; mkBin 5 1; mkBin 10 1].
Proof.
  intros Hb h.
  pose proof (binsOf_fillBins binSize arr [] [] (binsOf_nil binSize)) as Hm.
  simpl app in Hm. set (m := fillBins binSize arr []) in *.
  assert (Hin : forall b, In b h <-> exists e, In e m /\ b = mkBin (fst e) (snd e)).
  { intro b. unfold h, makeHistogram. fold m. rewrite in_map_iff.
    split; intros (e & H1 & H2).
    - exists e. split; [now apply In_sort_by in H2 | now symmetry].
    - exists e. split; [now symmetry | now apply In_sort_by]. }
  split; [|split; [|split; [|split]]].
  - intros v Hv.
    destruct (binsOf_sample binSize arr m v Hm Hv) as (e & He & Hk).
    exists (mkBin (fst e) (snd e)). split; [apply Hin; eauto|].
    simpl. destruct (binOf_bounds binSize v Hb) as [L U].
    repeat split; [assumption | lra | lra].
  - intros b Hbin. apply Hin in Hbin as (e & He & ->). simpl.
    now apply binsOf_entry with (m := m).
  - unfold h, makeHistogram. fold m. apply sorted_map. simpl.
    apply (sort_by_strict fst). apply Hm.
  - unfold h, makeHistogram, sumRuns. fold m.
    rewrite map_map. simpl.
    change (Arr.sumZ (map (fun e => snd e) (sort_by fst m)))
      with (sumCounts (sort_by fst m)).
    rewrite sumCounts_sort_by. apply Hm.
  - reflexivity.
Qed.

Lemma makeHistogram_bins_witness :
  sumRuns (makeHistogram [3%Q; 3%Q; 7%Q; 12%Q] 5) = 4.
Proof.
  refine (proj1 (proj2 (proj2 (proj2
            (makeHistogram_bins [3%Q; 3%Q; 7%Q; 12%Q] 5 _))))).
  reflexivity.
Defined.


(** * Further properties of the engine *)

(** ** The adversarial measure *)

Section PotentialFacts.

Variable params : Params.

Local Abbreviation T := (starPityThreshold params).
Local Abbreviation A := (buildCost params).
Local Abbreviation pot := (potential params).

Lemma zeroBelow_cons c x t :
  zeroBelow (S c) (x :: t) -> x = 0 /\ zeroBelow c t.
Proof.
  intro H. split.
  - apply (H O). lia.
  - intros i Hi. apply (H (S i)). lia.
Qed.

Lemma buildCost_succ j : A (S j) = (Z.to_nat T * S (A j) + A j + 1)%nat.
Proof. simpl. unfold pityFails. lia. Qed.

(** Arithmetic on counts: numbers of failures are treated as unknowns. *)
Ltac counts :=
  repeat match goal with
         | |- context [Z.to_nat ?z] =>
           let n := fresh "n" in generalize (Z.to_nat z); intro n
         end;
  intros; nia.

Lemma potential_set : forall p j i v, (i < length p)%nat ->
  (pot j (Arr.set p i v) + Z.to_nat (T - Arr.at_ p i) * S (A (j + i))
   = pot j p + Z.to_nat (T - v) * S (A (j + i)))%nat.
Proof.
  induction p as [|x t IH]; intros j i v Hi; simpl in Hi; [lia|].
  destruct i as [|i].
  - rewrite Nat.add_0_r. unfold Arr.at_. simpl. counts.
  - replace (j + S i)%nat with (S j + i)%nat by lia.
    specialize (IH (S j) i v ltac:(lia)).
    unfold Arr.at_ in *. simpl in IH |- *.
    revert IH. counts.
Qed.

Lemma potential_ge : forall p j c,
  zeroBelow c p -> (c <= length p)%nat ->
  (A (j + c) + (length p - c) <= pot j p + A j)%nat.
Proof.
  induction p as [|x t IH]; intros j c Hz Hc; simpl in Hc.
  - replace c with O by lia. simpl. rewrite !Nat.add_0_r. lia.
  - destruct c as [|c].
    + specialize (IH (S j) O ltac:(intros i Hi; lia) ltac:(lia)).
      rewrite Nat.add_0_r in *. simpl potential. simpl length.
      revert IH. counts.
    + apply zeroBelow_cons in Hz as [-> Hz].
      specialize (IH (S j) c Hz ltac:(lia)).
      replace (j + S c)%nat with (S j + c)%nat by lia.
      simpl potential. simpl length. rewrite Z.sub_0_r.
      rewrite buildCost_succ in IH. revert IH. counts.
Qed.

Lemma potential_zero : forall p j,
  zeroBelow (length p) p -> (pot j p + A j = A (j + length p))%nat.
Proof.
  induction p as [|x t IH]; intros j Hz.
  - simpl. now rewrite Nat.add_0_r.
  - simpl length in *. apply zeroBelow_cons in Hz as [-> Hz].
    specialize (IH (S j) Hz).
    replace (j + S (length t))%nat with (S j + length t)%nat by lia.
    simpl potential. rewrite Z.sub_0_r.
    rewrite buildCost_succ in IH. revert IH. counts.
Qed.

End PotentialFacts.

(** ** Runs without reset of pity: termination and the worst case as a bound *)

Section BoundedRuns.

Context {RS : Type} (rnd : RS -> Q * RS).
Variable params : Params.
Hypothesis no_reset : starPityResetsOnAnyFail params = false.

Local Abbreviation N := (numStars params).
Local Abbreviation T := (starPityThreshold params).
Local Abbreviation A := (buildCost params).
Local Abbreviation pot := (potential params 0).

Lemma decide_false g p r : fst (decide rnd g p r) = false -> g = false.
Proof. unfold decide. destruct g; simpl; [discriminate | reflexivity]. Qed.

(** What one star attempt does to the attempts and to the pity counters. *)
Lemma starAttempt_cases v c r :
  attempts (v_out (snd (fst (starAttempt rnd params v c r))))
  = attempts (v_out v) + 1 /\
  (if fst (fst (starAttempt rnd params v c r))
   then starPityFails (snd (fst (starAttempt rnd params v c r)))
        = Arr.set (starPityFails v) c 0
   else Arr.at_ (starPityFails v) c < T /\
        starPityFails (snd (fst (starAttempt rnd params v c r)))
        = Arr.set (starPityFails v) c (Arr.at_ (starPityFails v) c + 1)).
Proof.
  unfold starAttempt.
  pose proof (decide_false (T <=? Arr.at_ (starPityFails v) c)
                (Arr.get (starProbs params) c) r) as Hd.
  destruct (decide rnd _ _ r) as [[|] r1]; simpl in *.
  - split; reflexivity.
  - unfold handleFailReset. rewrite no_reset. simpl.
    specialize (Hd eq_refl). apply Z.leb_gt in Hd. auto.
Qed.

(** The star phase ends within the adversarial measure of its start, and
    spends at most that many attempts. *)
Lemma build_stars_bounded (n : nat) : forall v c r,
  length (starPityFails v) = N ->
  zeroBelow c (starPityFails v) ->
  (c <= N)%nat ->
  (pot (starPityFails v) <= n + A c)%nat ->
  exists v' r',
    build_stars rnd params (S n) v c r = Some (v', r') /\
    length (starPityFails v') = N /\
    zeroBelow N (starPityFails v') /\
    attempts (v_out v') + Z.of_nat (A c)
    <= attempts (v_out v) + Z.of_nat (pot (starPityFails v)).
Proof.
  induction n as [|n IH]; intros v c r Hlen Hz Hc Hn;
    pose proof (potential_ge params (starPityFails v) 0 c Hz ltac:(lia)) as Hge;
    simpl in Hge; rewrite build_stars_step;
    destruct (c <? N)%nat eqn:Ec;
    try (apply Nat.ltb_ge in Ec; replace c with N in * by lia;
         exists v, r; repeat split; auto; lia);
    apply Nat.ltb_lt in Ec.
  - lia.
  - destruct (starAttempt_cases v c r) as [Ha Hp].
    pose proof (potential_set params (starPityFails v) 0 c) as Hs.
    simpl in Hs.
    destruct (starAttempt rnd params v c r) as [[b v1] r1]; simpl in Ha, Hp.
    destruct b.
    + specialize (Hs 0 ltac:(lia)). rewrite <- Hp in Hs.
      rewrite Z.sub_0_r in Hs.
      pose proof (buildCost_succ params c) as Hb.
      destruct (IH v1 (S c) r1) as (v' & r' & E & Hl' & Hz' & Hb').
      * rewrite Hp. now rewrite ArrFacts.length_set.
      * rewrite Hp. intros i Hi.
        destruct (Nat.eq_dec i c) as [->|Hne].
        -- apply ArrFacts.at_set_same. lia.
        -- rewrite ArrFacts.at_set_other by lia. apply Hz. lia.
      * lia.
      * nia.
      * exists v', r'. repeat split; auto. nia.
    + destruct Hp as [Hlt Hp].
      specialize (Hs (Arr.at_ (starPityFails v) c + 1) ltac:(lia)).
      rewrite <- Hp in Hs.
      replace (Z.to_nat (T - Arr.at_ (starPityFails v) c))
        with (S (Z.to_nat (T - (Arr.at_ (starPityFails v) c + 1)))) in Hs by lia.
      destruct (IH v1 O r1) as (v' & r' & E & Hl' & Hz' & Hb').
      * rewrite Hp. now rewrite ArrFacts.length_set.
      * intros i Hi. lia.
      * lia.
      * simpl. nia.
      * exists v', r'. repeat split; auto. simpl in Hb'. nia.
Qed.

Lemma potential_clear pity :
  length pity = N -> zeroBelow N pity -> pot pity = A N.
Proof.
  intros Hl Hz. rewrite <- Hl in Hz.
  pose proof (potential_zero params pity 0 Hz) as H.
  simpl in H. rewrite Hl in H. lia.
Qed.

(** From cleared pity counters the star phase ends within the attempts of
    the adversarial one, and leaves the counters cleared. *)
Lemma build_stars_clear v r fuel :
  length (starPityFails v) = N -> zeroBelow N (starPityFails v) ->
  (A N < fuel)%nat ->
  exists v' r',
    build_stars rnd params fuel v O r = Some (v', r') /\
    length (starPityFails v') = N /\
    zeroBelow N (starPityFails v') /\
    attempts (v_out v') <= attempts (v_out v) + Z.of_nat (A N).
Proof.
  intros Hl Hz Hf.
  destruct (build_stars_bounded (A N) v O r Hl) as (v' & r' & E & Hl' & Hz' & Hb).
  - intros i Hi. lia.
  - lia.
  - rewrite (potential_clear _ Hl Hz). lia.
  - exists v', r'. repeat split; auto.
    + apply (build_stars_mono rnd params _ fuel _ _ _ _ E). lia.
    + rewrite (potential_clear _ Hl Hz) in Hb. simpl in Hb. lia.
Qed.

Lemma initVars_clear :
  length (starPityFails (initVars params)) = N /\
  zeroBelow N (starPityFails (initVars params)).
Proof.
  split; [apply ArrFacts.length_fill | apply zeroBelow_fill].
Qed.

Lemma simulateStarsOnly_total r fuel : (A N < fuel)%nat ->
  exists o r',
    simulateStarsOnly rnd params fuel r = Some (o, r') /\
    attempts o <= Z.of_nat (A N).
Proof.
  intro Hf. destruct initVars_clear as [Hl Hz].
  destruct (build_stars_clear (initVars params) r fuel Hl Hz Hf)
    as (v' & r' & E & _ & _ & Hb).
  exists (v_out v'), r'. unfold simulateStarsOnly. rewrite E.
  split; [reflexivity | exact Hb].
Qed.

(** The full loop, with [k] final failures still possible before the final
    pity guarantees the upgrade. *)
Lemma full_loop_bounded (k : nat) : forall v fpf r fuel,
  length (starPityFails v) = N -> zeroBelow N (starPityFails v) ->
  k = Z.to_nat (finalPityThreshold params - fpf) ->
  (k + A N + 2 <= fuel)%nat ->
  exists o fpf' r',
    full_loop rnd params fuel v fpf r = Some (o, fpf', r') /\
    attempts o <= attempts (v_out v) + Z.of_nat (S k * S (A N)).
Proof.
  induction k as [|k IH]; intros v fpf r fuel Hl Hz Hk Hf;
    (destruct fuel as [|fuel]; [lia|]); cbn [full_loop];
    destruct (build_stars_clear v r fuel Hl Hz ltac:(lia))
      as (v1 & r1 & E & Hl1 & Hz1 & Hb1);
    rewrite E;
    pose proof (decide_false (finalPityThreshold params <=? fpf)
                  (Some (finalProb params)) r1) as Hd;
    destruct (decide rnd _ _ r1) as [[|] r2]; simpl in Hd;
    try (eexists; eexists; eexists; split; [reflexivity|]; simpl; lia);
    specialize (Hd eq_refl); apply Z.leb_gt in Hd.
  - lia.
  - destruct (IH (handleFailReset params (mkVars (charge params (v_out v1))
                                                 (starPityFails v1)))
                 (fpf + 1) r2 fuel) as (o & fpf' & r' & E' & Hb').
    + unfold handleFailReset. rewrite no_reset. exact Hl1.
    + unfold handleFailReset. rewrite no_reset. exact Hz1.
    + lia.
    + lia.
    + exists o, fpf', r'. split; [exact E'|].
      unfold handleFailReset in Hb'. rewrite no_reset in Hb'. simpl in Hb'.
      nia.
Qed.

Lemma simulateFullRun_total r fuel :
  (Z.to_nat (finalPityThreshold params) + A N + 2 <= fuel)%nat ->
  exists o r',
    simulateFullRun rnd params fuel r = Some (o, r') /\
    attempts o <= Z.of_nat (S (Z.to_nat (finalPityThreshold params)) * S (A N)).
Proof.
  intro Hf. destruct initVars_clear as [Hl Hz].
  destruct (full_loop_bounded (Z.to_nat (finalPityThreshold params))
              (initVars params) 0 r fuel Hl Hz ltac:(f_equal; lia) Hf)
    as (o & fpf' & r' & E & Hb).
  exists o, r'. unfold simulateFullRun. rewrite E.
  split; [reflexivity | exact Hb].
Qed.

End BoundedRuns.

(** X1.  With [starPityResetsOnAnyFail] clear, [simulateStarsOnly] returns
    on every random source and for all probabilities and thresholds, and
    its attempts are at most those that [worstCaseStarsOnly] returns. *)
Theorem stars_only_within_worst_case
    (RS : Type) (rnd : RS -> Q * RS) (params : Params) (r : RS) :
  starPityResetsOnAnyFail params = false ->
  exists o r' a,
    returns (fun fuel => simulateStarsOnly rnd params fuel r) (o, r') /\
    returns (worstCaseStarsOnly params) (finiteWorst params a) /\
    attempts o <= a.
Proof.
  intro Hr.
  destruct (simulateStarsOnly_total rnd params Hr r
              (S (buildCost params (numStars params))) ltac:(lia))
    as (o & r' & E & Hb).
  exists o, r', (Z.of_nat (buildCost params (numStars params))).
  split; [|split; [now apply worstCaseStarsOnly_returns | exact Hb]].
  exact (returns_of_run _ _ _ (simulateStarsOnly_mono rnd params r) E).
Qed.

Lemma stars_only_within_worst_case_witness :
  exists o r' a,
    returns (fun fuel => simulateStarsOnly rand diag2 fuel (createLCG 42)) (o, r') /\
    returns (worstCaseStarsOnly diag2) (finiteWorst diag2 a) /\
    attempts o <= a.
Proof.
  exact (stars_only_within_worst_case Z rand diag2 (createLCG 42) eq_refl).
Defined.

(** X2.  With [starPityResetsOnAnyFail] clear, [simulateFullRun] returns on
    every random source and for all probabilities and thresholds, and its
    attempts are at most those that [worstCaseFull] returns. *)
Theorem full_run_within_worst_case
    (RS : Type) (rnd : RS -> Q * RS) (params : Params) (r : RS) :
  starPityResetsOnAnyFail params = false ->
  exists o r' a,
    returns (fun fuel => simulateFullRun rnd params fuel r) (o, r') /\
    returns (worstCaseFull params) (finiteWorst params a) /\
    attempts o <= a.
Proof.
  intro Hr.
  destruct (simulateFullRun_total rnd params Hr r
              (Z.to_nat (finalPityThreshold params)
               + buildCost params (numStars params) + 2) ltac:(lia))
    as (o & r' & E & Hb).
  exists o, r'. eexists.
  split; [|split; [now apply worstCaseFull_returns | exact Hb]].
  exact (returns_of_run _ _ _ (simulateFullRun_mono rnd params r) E).
Qed.

Lemma full_run_within_worst_case_witness :
  exists o r' a,
    returns (fun fuel => simulateFullRun rand diag1 fuel (createLCG 1)) (o, r') /\
    returns (worstCaseFull diag1) (finiteWorst diag1 a) /\
    attempts o <= a.
Proof.
  exact (full_run_within_worst_case Z rand diag1 (createLCG 1) eq_refl).
Defined.

(** ** The batch driver *)

Lemma simulateStarsOnly_balanced {RS} (rnd : RS -> Q * RS) params fuel r o r' :
  simulateStarsOnly rnd params fuel r = Some (o, r') -> balanced params 0 o.
Proof.
  unfold simulateStarsOnly. intro H.
  destruct (build_stars rnd params fuel _ O r) as [[v r1]|] eqn:E; [|discriminate].
  injection H as <- <-.
  exact (build_stars_balanced rnd params 0 _ _ _ _ _ _ E (initVars_balanced params)).
Qed.

Lemma simulateFullRun_balanced {RS} (rnd : RS -> Q * RS) params fuel r o r' :
  simulateFullRun rnd params fuel r = Some (o, r') ->
  exists k, 1 <= k /\ balanced params k o.
Proof.
  unfold simulateFullRun. intro H.
  destruct (full_loop rnd params fuel _ 0 r) as [[[o1 fpf] r1]|] eqn:E;
    [|discriminate].
  injection H as <- <-.
  destruct (full_loop_balanced rnd params _ _ _ _ _ _ _ E
              (initVars_balanced params) (Z.le_refl 0)) as [Hb Hf].
  exists (fpf + 1). split; [lia | exact Hb].
Qed.

Lemma length_pushEach cols vals :
  length cols = length vals -> length (pushEach cols vals) = length vals.
Proof.
  intro H. unfold pushEach. rewrite length_map, length_combine. lia.
Qed.

Lemma sumQ_shift l a : (fold_left Qplus l a == a + Arr.sumQ l)%Q.
Proof.
  unfold Arr.sumQ. revert a. induction l as [|x t IH]; intro a; simpl.
  - ring.
  - rewrite (IH (a + x)%Q), (IH (0 + x)%Q). ring.
Qed.

Lemma sumQ_priced price atts golds :
  pricedBy price atts golds -> (Arr.sumQ golds == Arr.sumQ atts * price)%Q.
Proof.
  induction 1 as [|a g atts golds Hag _ IH].
  - unfold Arr.sumQ. simpl. ring.
  - unfold Arr.sumQ in *. simpl.
    rewrite (sumQ_shift golds), (sumQ_shift atts).
    unfold Arr.sumQ. rewrite IH, Hag. ring.
Qed.

Lemma mean_priced price atts golds :
  pricedBy price atts golds -> atts <> [] ->
  exists a g, mean atts = Some a /\ mean golds = Some g /\ (g == a * price)%Q.
Proof.
  intros Hp Hne.
  pose proof (sumQ_priced _ _ _ Hp) as Hs.
  pose proof (Forall2_length Hp) as Hl.
  destruct atts as [|a0 atts]; [congruence|].
  destruct golds as [|g0 golds]; [discriminate|].
  eexists; eexists. split; [reflexivity|]. split; [reflexivity|].
  rewrite Hs, <- Hl. unfold Qdiv. ring.
Qed.

Section Trials.

Variable params : Params.

Local Abbreviation N := (numStars params).

(** What the trial loop keeps of its arrays. *)
Lemma trials_loop_batch fuel : forall n rng b b',
  trials_loop fuel params n rng b = Some b' ->
  (length (starsAttempts b') = length (starsAttempts b) + n)%nat /\
  (length (fullAttempts b') = length (fullAttempts b) + n)%nat /\
  (length (starsAttemptsPerStar b) = N -> length (starsAttemptsPerStar b') = N) /\
  (length (fullAttemptsPerStar b) = N -> length (fullAttemptsPerStar b') = N) /\
  (pricedBy (goldPerAttempt params) (starsAttempts b) (starsGolds b) ->
   pricedBy (goldPerAttempt params) (starsAttempts b') (starsGolds b')) /\
  (pricedBy (goldPerAttempt params) (fullAttempts b) (fullGolds b) ->
   pricedBy (goldPerAttempt params) (fullAttempts b') (fullGolds b')).
Proof.
  intro n; induction n as [|n IH]; intros rng b b' H; simpl in H.
  - injection H as <-. repeat split; auto; lia.
  - destruct (simulateStarsOnly rand params fuel rng) as [[s rng1]|] eqn:Es;
      [|discriminate].
    destruct (simulateFullRun rand params fuel rng1) as [[f rng2]|] eqn:Ef;
      [|discriminate].
    apply simulateStarsOnly_balanced in Es. destruct Es as (Hls & _ & Hgs).
    apply simulateFullRun_balanced in Ef. destruct Ef as (k & _ & Hlf & _ & Hgf).
    apply IH in H. simpl in H.
    destruct H as (H1 & H2 & H3 & H4 & H5 & H6).
    rewrite !length_app in *. simpl in *.
    repeat split; try lia.
    + intro Hc. apply H3. rewrite length_pushEach; lia.
    + intro Hc. apply H4. rewrite length_pushEach; lia.
    + intro Hp. apply H5. apply Forall2_app; [assumption|].
      constructor; [exact Hgs | constructor].
    + intro Hp. apply H6. apply Forall2_app; [assumption|].
      constructor; [exact Hgf | constructor].
Qed.

Lemma trials_loop_mono fuel fuel' : (fuel <= fuel')%nat ->
  forall n rng b b',
    trials_loop fuel params n rng b = Some b' ->
    trials_loop fuel' params n rng b = Some b'.
Proof.
  intros Hle n; induction n as [|n IH]; intros rng b b' H; simpl in *;
    [exact H|].
  destruct (simulateStarsOnly rand params fuel rng) as [[s rng1]|] eqn:Es;
    [|discriminate].
  destruct (simulateFullRun rand params fuel rng1) as [[f rng2]|] eqn:Ef;
    [|discriminate].
  rewrite (simulateStarsOnly_mono rand params rng _ _ _ Es Hle).
  rewrite (simulateFullRun_mono rand params rng1 _ _ _ Ef Hle).
  now apply IH.
Qed.

Lemma trials_loop_total fuel :
  starPityResetsOnAnyFail params = false ->
  (Z.to_nat (finalPityThreshold params) + buildCost params N + 2 <= fuel)%nat ->
  forall n rng b, exists b', trials_loop fuel params n rng b = Some b'.
Proof.
  intros Hr Hf n; induction n as [|n IH]; intros rng b; simpl.
  - now exists b.
  - destruct (simulateStarsOnly_total rand params Hr rng fuel ltac:(lia))
      as (s & rng1 & -> & _).
    destruct (simulateFullRun_total rand params Hr rng1 fuel Hf)
      as (f & rng2 & -> & _).
    apply IH.
Qed.

End Trials.

Lemma runSimulation_mono ui trials seed :
  monotone (fun fuel => runSimulation fuel ui trials seed).
Proof.
  intros n m res H Hle. unfold runSimulation in *.
  destruct (trials_loop n _ trials _ _) as [b|] eqn:Et; [|discriminate].
  rewrite (trials_loop_mono _ n m Hle _ _ _ _ Et).
  destruct (worstCaseStarsOnly _ n) as [ws|] eqn:Es; [|discriminate].
  destruct (worstCaseFull _ n) as [wf|] eqn:Ef; [|discriminate].
  rewrite (worstCaseStarsOnly_mono _ _ _ _ Es Hle).
  rewrite (worstCaseFull_mono _ _ _ _ Ef Hle).
  exact H.
Qed.

Lemma makeHistogram_sumRuns arr binSize :
  sumRuns (makeHistogram arr binSize) = Z.of_nat (length arr).
Proof.
  pose proof (binsOf_fillBins binSize arr [] [] (binsOf_nil binSize)) as Hm.
  simpl app in Hm. destruct Hm as (_ & _ & _ & Hs).
  unfold makeHistogram, sumRuns. rewrite map_map. simpl.
  change (Arr.sumZ (map (fun e => snd e) (sort_by fst (fillBins binSize arr []))))
    with (sumCounts (sort_by fst (fillBins binSize arr []))).
  now rewrite sumCounts_sort_by.
Qed.

(** X3.  With [starPityResetsOnAnyFail] clear, [runSimulation] returns a
    result for every number of trials, every seed and all probabilities,
    prices and thresholds of the form. *)
Theorem runSimulation_returns_without_reset (ui : Params) (trials : nat) (seed : Z) :
  starPityResetsOnAnyFail ui = false ->
  exists res, returns (fun fuel => runSimulation fuel ui trials seed) res.
Proof.
  intro Hr.
  set (fuel0 := (Z.to_nat (finalPityThreshold (formParams ui))
                 + buildCost (formParams ui) (numStars (formParams ui)) + 2)%nat).
  assert (E : exists res, runSimulation fuel0 ui trials seed = Some res).
  { unfold runSimulation.
    destruct (trials_loop_total (formParams ui) fuel0 Hr (le_n _) trials
                (createLCG (formSeed seed))
                (mkBatch [] [] [] []
                         (Arr.fill (numStars ui) []) (Arr.fill (numStars ui) [])))
      as [b ->].
    destruct (worstCaseStarsOnly_returns (formParams ui) Hr) as [n1 H1].
    destruct (worstCaseFull_returns (formParams ui) Hr) as [n2 H2].
    pose proof (worstCaseStarsOnly_mono (formParams ui)) as M1.
    pose proof (worstCaseFull_mono (formParams ui)) as M2.
    unfold worstCaseStarsOnly, worstCaseFull. simpl starPityResetsOnAnyFail.
    rewrite Hr.
    rewrite (wc_build_zeros (formParams ui) fuel0 0) by (unfold fuel0; lia).
    rewrite (wc_full_loop_zeros (formParams ui)
               (Z.to_nat (finalPityThreshold (formParams ui))) fuel0 0 0)
      by (unfold fuel0; try (f_equal; lia); lia).
    eexists. reflexivity. }
  destruct E as [res E]. exists res.
  exact (returns_of_run _ _ _ (runSimulation_mono ui trials seed) E).
Qed.

Lemma runSimulation_returns_without_reset_witness :
  exists res, returns (fun fuel => runSimulation fuel diag2 100 12345) res.
Proof.
  exact (runSimulation_returns_without_reset diag2 100 12345 eq_refl).
Defined.

(** X4.  In every result of [runSimulation], the runs of the bins of each
    of the two histograms sum to the number of trials, and each of the two
    per-star tables has one row per star. *)
Theorem runSimulation_counts_every_trial fuel ui trials seed res :
  runSimulation fuel ui trials seed = Some res ->
  sumRuns (starsHistogram res) = Z.of_nat trials /\
  sumRuns (fullHistogram res) = Z.of_nat trials /\
  length (starsPerStarRows res) = numStars ui /\
  length (fullPerStarRows res) = numStars ui.
Proof.
  unfold runSimulation. intro H.
  destruct (trials_loop fuel _ trials _ _) as [b|] eqn:Et; [|discriminate].
  destruct (worstCaseStarsOnly _ fuel) as [ws|]; [|discriminate].
  destruct (worstCaseFull _ fuel) as [wf|]; [|discriminate].
  injection H as <-. simpl.
  apply trials_loop_batch in Et. simpl in Et.
  destruct Et as (H1 & H2 & H3 & H4 & _ & _).
  rewrite !makeHistogram_sumRuns. unfold summarizePerStar.
  rewrite !length_map, H1, H2, H3, H4 by apply ArrFacts.length_fill.
  repeat split.
Qed.

Lemma runSimulation_counts_every_trial_witness :
  exists res,
    runSimulation 100 diag2 3 12345 = Some res /\
    sumRuns (starsHistogram res) = 3 /\ sumRuns (fullHistogram res) = 3.
Proof.
  destruct (runSimulation 100 diag2 3 12345) as [res|] eqn:E;
    [|vm_compute in E; discriminate].
  exists res. split; [reflexivity|].
  destruct (runSimulation_counts_every_trial 100 diag2 3 12345 res E)
    as (H1 & H2 & _). split; assumption.
Defined.

(** X5.  In every result of [runSimulation] over at least one trial, the
    mean gold of each summary is its mean attempts times [goldPerAttempt]
    (numbers being exact). *)
Theorem runSimulation_mean_gold fuel ui trials seed res :
  runSimulation fuel ui trials seed = Some res ->
  (1 <= trials)%nat ->
  (exists a g, meanAttempts (starsSummary res) = Some a /\
               meanGold (starsSummary res) = Some g /\
               (g == a * goldPerAttempt ui)%Q)
  /\ (exists a g, meanAttempts (fullSummary res) = Some a /\
                  meanGold (fullSummary res) = Some g /\
                  (g == a * goldPerAttempt ui)%Q).
Proof.
  unfold runSimulation. intros H Ht.
  destruct (trials_loop fuel _ trials _ _) as [b|] eqn:Et; [|discriminate].
  destruct (worstCaseStarsOnly _ fuel) as [ws|]; [|discriminate].
  destruct (worstCaseFull _ fuel) as [wf|]; [|discriminate].
  injection H as <-. simpl.
  apply trials_loop_batch in Et. simpl in Et.
  destruct Et as (H1 & H2 & _ & _ & H5 & H6).
  specialize (H5 (Forall2_nil _)). specialize (H6 (Forall2_nil _)).
  split; apply mean_priced; auto; intro Hnil;
    [rewrite Hnil in H1 | rewrite Hnil in H2]; simpl in *; lia.
Qed.

Lemma runSimulation_mean_gold_witness :
  exists res a g,
    runSimulation 100 diag2 3 12345 = Some res /\
    meanAttempts (fullSummary res) = Some a /\
    meanGold (fullSummary res) = Some g /\
    (g == a * goldPerAttempt diag2)%Q.
Proof.
  destruct (runSimulation 100 diag2 3 12345) as [res|] eqn:E;
    [|vm_compute in E; discriminate].
  destruct (runSimulation_mean_gold 100 diag2 3 12345 res E ltac:(lia))
    as [_ (a & g & H1 & H2 & H3)].
  exists res, a, g. auto.
Defined.

(** ** How often each star is attempted *)

Lemma stairs_chain sa :
  (forall j, Arr.at_ sa (S j) <= Arr.at_ sa j) ->
  forall i j, (i <= j)%nat -> Arr.at_ sa j <= Arr.at_ sa i.
Proof.
  intros H i j Hij. induction Hij as [|j Hij IH]; [lia|].
  specialize (H j). lia.
Qed.

Lemma stairs_attempt c sa : (c < length sa)%nat -> stairs c sa ->
  stairs (S c) (Arr.set sa c (Arr.at_ sa c + 1)) /\
  stairs O (Arr.set sa c (Arr.at_ sa c + 1)).
Proof.
  intros Hc [H1 H2].
  assert (G : forall j, Arr.at_ (Arr.set sa c (Arr.at_ sa c + 1)) (S j)
                        <= Arr.at_ (Arr.set sa c (Arr.at_ sa c + 1)) j).
  { intro j. destruct (Nat.eq_dec j c) as [->|Hj].
    - rewrite ArrFacts.at_set_same, ArrFacts.at_set_other by lia.
      specialize (H1 c). lia.
    - rewrite (ArrFacts.at_set_other sa c j) by lia.
      destruct (Nat.eq_dec (S j) c) as [<-|Hj'].
      + rewrite ArrFacts.at_set_same by lia. specialize (H2 j eq_refl). lia.
      + rewrite ArrFacts.at_set_other by lia. apply H1. }
  split; (split; [exact G|]); intros j Hj; [|discriminate].
  injection Hj as <-.
  rewrite ArrFacts.at_set_same, ArrFacts.at_set_other by lia.
  specialize (H1 c). lia.
Qed.

Lemma stairs_all sa : stairs (length sa) sa ->
  forall j, (j < length sa)%nat -> 1 <= Arr.at_ sa j.
Proof.
  intros [H1 H2] j Hj.
  destruct (length sa) as [|m] eqn:El; [lia|].
  specialize (H2 m eq_refl).
  assert (H0 : Arr.at_ sa (S m) = 0)
    by (unfold Arr.at_; apply nth_overflow; lia).
  pose proof (stairs_chain sa H1 j m ltac:(lia)). lia.
Qed.

Lemma sumZ_at_least l :
  (forall j, (j < length l)%nat -> 1 <= Arr.at_ l j) ->
  Z.of_nat (length l) <= Arr.sumZ l.
Proof.
  induction l as [|x t IH]; intro H; [reflexivity|].
  rewrite ArrFacts.sumZ_cons. simpl length.
  assert (Hx : 1 <= x) by (apply (H O); simpl; lia).
  assert (Ht : Z.of_nat (length t) <= Arr.sumZ t)
    by (apply IH; intros j Hj; apply (H (S j)); simpl; lia).
  lia.
Qed.

Section Stairs.

Context {RS : Type} (rnd : RS -> Q * RS).
Variable params : Params.

Local Abbreviation N := (numStars params).

Lemma build_stars_stairs fuel : forall v c r v' r',
  build_stars rnd params fuel v c r = Some (v', r') ->
  length (starAttempts (v_out v)) = N -> (c <= N)%nat ->
  stairs c (starAttempts (v_out v)) ->
  length (starAttempts (v_out v')) = N /\ stairs N (starAttempts (v_out v')).
Proof.
  induction fuel as [|fuel IH]; intros v c r v' r' H Hl Hc Hs; [discriminate|].
  rewrite build_stars_step in H. destruct (c <? N)%nat eqn:Ec.
  - apply Nat.ltb_lt in Ec.
    pose proof (starAttempt_out rnd params v c r) as Ho.
    destruct (starAttempt rnd params v c r) as [[b v1] r1]; simpl in Ho.
    destruct (stairs_attempt c (starAttempts (v_out v)) ltac:(lia) Hs) as [S1 S0].
    assert (Hl1 : length (starAttempts (v_out v1)) = N)
      by (rewrite Ho; simpl; now rewrite ArrFacts.length_set).
    destruct b; eapply IH; eauto; try lia; rewrite Ho; simpl; assumption.
  - apply Nat.ltb_ge in Ec. injection H as <- <-.
    replace N with c by lia. split; [lia | assumption].
Qed.

Lemma full_loop_stairs fuel : forall v fpf r o fpf' r',
  full_loop rnd params fuel v fpf r = Some (o, fpf', r') ->
  length (starAttempts (v_out v)) = N ->
  stairs O (starAttempts (v_out v)) ->
  length (starAttempts o) = N /\ stairs N (starAttempts o).
Proof.
  induction fuel as [|fuel IH]; intros v fpf r o fpf' r' H Hl Hs; [discriminate|].
  cbn [full_loop] in H.
  destruct (build_stars rnd params fuel v O r) as [[v1 r1]|] eqn:E;
    [|discriminate].
  destruct (build_stars_stairs _ _ _ _ _ _ E Hl ltac:(lia) Hs) as [Hl1 Hs1].
  destruct (decide rnd _ _ r1) as [[|] r2].
  - injection H as <- <- <-. simpl. auto.
  - eapply IH; [exact H | |]; rewrite handleFailReset_out; simpl;
      [assumption|].
    split; [apply Hs1 | discriminate].
Qed.

Lemma stairs_init : stairs O (starAttempts (v_out (initVars params))).
Proof.
  split; [|discriminate]. intro j. simpl. rewrite !ArrFacts.at_fill. lia.
Qed.

End Stairs.

(** X6.  In whatever [simulateStarsOnly] or [simulateFullRun] returns, no
    star has more attempts than a star before it, every star has at least
    one, and so [attempts] is at least [numStars] (plus 1 for the full
    run). *)
Theorem star_attempts_descend
    (RS : Type) (rnd : RS -> Q * RS) (params : Params) (fuel : nat) (r : RS) :
  (forall o r', simulateStarsOnly rnd params fuel r = Some (o, r') ->
     (forall i j, (i <= j)%nat ->
        Arr.at_ (starAttempts o) j <= Arr.at_ (starAttempts o) i) /\
     (forall j, (j < numStars params)%nat -> 1 <= Arr.at_ (starAttempts o) j) /\
     Z.of_nat (numStars params) <= attempts o)
  /\ (forall o r', simulateFullRun rnd params fuel r = Some (o, r') ->
     (forall i j, (i <= j)%nat ->
        Arr.at_ (starAttempts o) j <= Arr.at_ (starAttempts o) i) /\
     (forall j, (j < numStars params)%nat -> 1 <= Arr.at_ (starAttempts o) j) /\
     Z.of_nat (numStars params) + 1 <= attempts o).
Proof.
  assert (G : forall o k, balanced params k o -> 0 <= k ->
              stairs (numStars params) (starAttempts o) ->
              (forall i j, (i <= j)%nat ->
                 Arr.at_ (starAttempts o) j <= Arr.at_ (starAttempts o) i) /\
              (forall j, (j < numStars params)%nat ->
                 1 <= Arr.at_ (starAttempts o) j) /\
              Z.of_nat (numStars params) + k <= attempts o).
  { intros o k (Hl & Ha & _) Hk Hs.
    rewrite <- Hl in Hs. pose proof (stairs_all _ Hs) as Hall.
    rewrite Hl in Hall.
    split; [apply stairs_chain, Hs|]. split; [exact Hall|].
    rewrite <- Hl in Hall. apply sumZ_at_least in Hall. lia. }
  split; intros o r' H.
  - pose proof (simulateStarsOnly_balanced _ _ _ _ _ _ H) as Hb.
    unfold simulateStarsOnly in H.
    destruct (build_stars rnd params fuel _ O r) as [[v r1]|] eqn:E;
      [|discriminate].
    injection H as <- <-.
    destruct (build_stars_stairs rnd params _ _ _ _ _ _ E) as [_ Hs];
      [apply ArrFacts.length_fill | lia | apply stairs_init |].
    destruct (G _ 0 Hb (Z.le_refl 0) Hs) as (G1 & G2 & G3).
    repeat split; auto. lia.
  - destruct (simulateFullRun_balanced _ _ _ _ _ _ H) as (k & Hk & Hb).
    unfold simulateFullRun in H.
    destruct (full_loop rnd params fuel _ 0 r) as [[[o1 fpf] r1]|] eqn:E;
      [|discriminate].
    injection H as <- <-.
    destruct (full_loop_stairs rnd params _ _ _ _ _ _ _ E) as [_ Hs];
      [apply ArrFacts.length_fill | apply stairs_init |].
    destruct (G _ k Hb ltac:(lia) Hs) as (G1 & G2 & G3).
    repeat split; auto. lia.
Qed.

Lemma star_attempts_descend_witness :
  exists o r',
    simulateFullRun rand diag2 100 (createLCG 42) = Some (o, r') /\
    Arr.at_ (starAttempts o) 1 <= Arr.at_ (starAttempts o) 0 /\
    3 <= attempts o.
Proof.
  destruct (simulateFullRun rand diag2 100 (createLCG 42)) as [[o r']|] eqn:E;
    [|vm_compute in E; discriminate].
  destruct (proj2 (star_attempts_descend Z rand diag2 100 (createLCG 42)) o r' E)
    as (H1 & _ & H3).
  exists o, r'. split; [reflexivity|]. split; [apply H1; lia | exact H3].
Defined.

(** ** The worst case in closed form *)

Lemma buildCost_geometric params k :
  Z.of_nat (pityFails params) * Z.of_nat (buildCost params k)
  + (Z.of_nat (pityFails params) + 1)
  = (Z.of_nat (pityFails params) + 1) ^ (Z.of_nat k + 1).
Proof.
  induction k as [|k IH].
  - simpl. lia.
  - replace (Z.of_nat (S k) + 1) with (Z.succ (Z.of_nat k + 1)) by lia.
    rewrite Z.pow_succ_r by lia. rewrite <- IH.
    simpl buildCost. nia.
Qed.

Lemma buildCost_linear params k :
  pityFails params = O -> buildCost params k = k.
Proof.
  intro H. induction k as [|k IH]; simpl; [reflexivity|].
  rewrite H, IH. lia.
Qed.

(** X7.  With [starPityResetsOnAnyFail] clear, the attempts [a] that
    [worstCaseStarsOnly] returns grow geometrically with the number of
    stars: for a star pity threshold [t >= 0],
    [t * a = (t + 1) ^ (numStars + 1) - (t + 1)], that is
    [a = (t + 1) + (t + 1)^2 + ... + (t + 1)^numStars]; for [t <= 0],
    [a = numStars]. *)
Theorem worst_case_stars_closed_form (params : Params) :
  starPityResetsOnAnyFail params = false ->
  exists a : Z,
    returns (worstCaseStarsOnly params) (finiteWorst params a) /\
    (0 <= starPityThreshold params ->
     starPityThreshold params * a
     = (starPityThreshold params + 1) ^ (Z.of_nat (numStars params) + 1)
       - (starPityThreshold params + 1)) /\
    (starPityThreshold params <= 0 -> a = Z.of_nat (numStars params)).
Proof.
  intro Hr. exists (Z.of_nat (buildCost params (numStars params))).
  split; [now apply worstCaseStarsOnly_returns|]. split.
  - intro Ht. pose proof (buildCost_geometric params (numStars params)) as H.
    unfold pityFails in H. rewrite Z2Nat.id in H by assumption. lia.
  - intro Ht. rewrite buildCost_linear; [reflexivity|].
    unfold pityFails. lia.
Qed.

Lemma worst_case_stars_closed_form_witness :
  exists a : Z,
    returns (worstCaseStarsOnly diag2) (finiteWorst diag2 a) /\
    2 * a = 3 ^ 3 - 3.
Proof.
  destruct (worst_case_stars_closed_form diag2 eq_refl) as (a & H1 & H2 & _).
  exists a. split; [exact H1|]. apply H2. simpl. lia.
Defined.

(** ** A pity threshold of 0 *)

Section AlwaysGuaranteed.

Context {RS : Type} (rnd : RS -> Q * RS).
Variable params : Params.
Hypothesis pity_zero : starPityThreshold params <= 0.

Local Abbreviation N := (numStars params).

(** Every star attempt is guaranteed: the star phase goes straight through
    and leaves the random source alone. *)
Lemma build_stars_guaranteed (k : nat) : forall c v r,
  (c + k = N)%nat ->
  starPityFails v = Arr.fill N 0 ->
  exists v',
    build_stars rnd params (S k) v c r = Some (v', r) /\
    starPityFails v' = Arr.fill N 0 /\
    attempts (v_out v') = attempts (v_out v) + Z.of_nat k.
Proof.
  induction k as [|k IH]; intros c v r Hc Hp; rewrite build_stars_step.
  - replace (c <? N)%nat with false by (symmetry; apply Nat.ltb_ge; lia).
    exists v. repeat split; auto. lia.
  - replace (c <? N)%nat with true by (symmetry; apply Nat.ltb_lt; lia).
    unfold starAttempt, decide. rewrite Hp, ArrFacts.at_fill.
    replace (starPityThreshold params <=? 0) with true
      by (symmetry; apply Z.leb_le; lia).
    destruct (IH (S c)
                (mkVars (countStar (charge params (v_out v)) c)
                        (Arr.set (Arr.fill N 0) c 0)) r)
      as (v' & E & Hp' & Ha'); [lia | |].
    + simpl. rewrite <- (ArrFacts.at_fill N c) at 2. apply ArrFacts.set_same.
    + exists v'. split; [exact E|]. split; [exact Hp'|].
      rewrite Ha'. simpl. lia.
Qed.

End AlwaysGuaranteed.

(** X8.  With a star pity threshold of 0 (or less) every star attempt is
    guaranteed: [simulateStarsOnly] returns [numStars] attempts whatever
    the probabilities and the reset flag, and leaves the random source as
    it was; with a final pity threshold of 0 as well, [simulateFullRun]
    returns [numStars + 1] attempts and leaves the source as it was. *)
Theorem zero_pity_needs_no_draw
    (RS : Type) (rnd : RS -> Q * RS) (params : Params) (r : RS) :
  starPityThreshold params <= 0 ->
  (exists o,
     returns (fun fuel => simulateStarsOnly rnd params fuel r) (o, r) /\
     attempts o = Z.of_nat (numStars params))
  /\ (finalPityThreshold params <= 0 ->
      exists o,
        returns (fun fuel => simulateFullRun rnd params fuel r) (o, r) /\
        attempts o = Z.of_nat (numStars params) + 1).
Proof.
  intro Ht.
  destruct (build_stars_guaranteed rnd params Ht (numStars params) O
              (initVars params) r ltac:(lia) eq_refl) as (v' & E & Hp & Ha).
  split.
  - exists (v_out v'). split; [|simpl in Ha; lia].
    apply (returns_of_run _ (S (numStars params)));
      [apply simulateStarsOnly_mono|].
    unfold simulateStarsOnly. now rewrite E.
  - intro Hf. exists (charge params (v_out v')).
    split; [|simpl in *; lia].
    apply (returns_of_run _ (S (S (numStars params))));
      [apply simulateFullRun_mono|].
    unfold simulateFullRun. cbn [full_loop]. rewrite E. unfold decide.
    replace (finalPityThreshold params <=? 0) with true
      by (symmetry; apply Z.leb_le; lia).
    reflexivity.
Qed.

Lemma zero_pity_needs_no_draw_witness :
  exists o,
    returns (fun fuel =>
               simulateStarsOnly rand (withStarPity diag2 0) fuel (createLCG 42))
            (o, createLCG 42) /\
    attempts o = 2.
Proof.
  exact (proj1 (zero_pity_needs_no_draw Z rand (withStarPity diag2 0)
                  (createLCG 42) ltac:(simpl; lia))).
Defined.

(** ** Pity counters that are cleared on every failure *)

Section ClearedPity.

Context {RS : Type} (rnd : RS -> Q * RS).
Variable params : Params.
Variable t2 : Z.
Hypothesis reset : starPityResetsOnAnyFail params = true.
Hypothesis pity_pos : 1 <= starPityThreshold params.
Hypothesis pity_pos2 : 1 <= t2.

Local Abbreviation N := (numStars params).
Local Abbreviation params2 := (withStarPity params t2).

(** At cleared counters an attempt goes the same way under both
    thresholds, and leaves the counters cleared. *)
Lemma starAttempt_cleared v c r :
  starPityFails v = Arr.fill N 0 ->
  starAttempt rnd params2 v c r = starAttempt rnd params v c r /\
  starPityFails (snd (fst (starAttempt rnd params v c r))) = Arr.fill N 0.
Proof.
  intro Hp. unfold starAttempt. simpl starPityThreshold. simpl starProbs.
  rewrite Hp, ArrFacts.at_fill.
  replace (starPityThreshold params <=? 0) with false
    by (symmetry; apply Z.leb_gt; lia).
  replace (t2 <=? 0) with false by (symmetry; apply Z.leb_gt; lia).
  destruct (decide rnd false _ r) as [[|] r1]; simpl.
  - split; [reflexivity|].
    rewrite <- (ArrFacts.at_fill N c) at 2. apply ArrFacts.set_same.
  - unfold handleFailReset. simpl starPityResetsOnAnyFail. rewrite reset.
    split; reflexivity.
Qed.

Lemma build_stars_cleared fuel : forall v c r,
  starPityFails v = Arr.fill N 0 ->
  build_stars rnd params2 fuel v c r = build_stars rnd params fuel v c r /\
  (forall v' r', build_stars rnd params fuel v c r = Some (v', r') ->
                 starPityFails v' = Arr.fill N 0).
Proof.
  induction fuel as [|fuel IH]; intros v c r Hp; [split; [reflexivity|discriminate]|].
  rewrite !build_stars_step. simpl numStars.
  destruct (c <? N)%nat.
  - destruct (starAttempt_cleared v c r Hp) as [-> Hp1].
    destruct (starAttempt rnd params v c r) as [[[|] v1] r1]; simpl in Hp1;
      apply IH; assumption.
  - split; [reflexivity|]. now intros v' r' [= <- <-].
Qed.

Lemma full_loop_cleared fuel : forall v fpf r,
  starPityFails v = Arr.fill N 0 ->
  full_loop rnd params2 fuel v fpf r = full_loop rnd params fuel v fpf r.
Proof.
  induction fuel as [|fuel IH]; intros v fpf r Hp; [reflexivity|].
  cbn [full_loop].
  destruct (build_stars_cleared fuel v O r Hp) as [-> Hc].
  destruct (build_stars rnd params fuel v O r) as [[v1 r1]|]; [|reflexivity].
  specialize (Hc v1 r1 eq_refl).
  simpl finalPityThreshold. simpl finalProb.
  destruct (decide rnd _ _ r1) as [[|] r2]; [reflexivity|].
  unfold handleFailReset. simpl starPityResetsOnAnyFail. rewrite reset.
  apply IH. reflexivity.
Qed.

End ClearedPity.

(** X9.  With [starPityResetsOnAnyFail] set, star pity never guarantees
    anything: the two simulators return the same, on every random source,
    whatever the star pity threshold, as long as it is at least 1. *)
Theorem reset_makes_star_pity_idle
    (RS : Type) (rnd : RS -> Q * RS) (params : Params) (t2 : Z)
    (fuel : nat) (r : RS) :
  starPityResetsOnAnyFail params = true ->
  1 <= starPityThreshold params ->
  1 <= t2 ->
  simulateStarsOnly rnd (withStarPity params t2) fuel r
  = simulateStarsOnly rnd params fuel r
  /\ simulateFullRun rnd (withStarPity params t2) fuel r
     = simulateFullRun rnd params fuel r.
Proof.
  intros Hr H1 H2. unfold simulateStarsOnly, simulateFullRun.
  change (initVars (withStarPity params t2)) with (initVars params).
  rewrite (proj1 (build_stars_cleared rnd params t2 Hr H1 H2 fuel
                    (initVars params) O r eq_refl)).
  rewrite (full_loop_cleared rnd params t2 Hr H1 H2 fuel (initVars params) 0 r
             eq_refl).
  split; reflexivity.
Qed.

Lemma reset_makes_star_pity_idle_witness :
  simulateFullRun rand
    (withStarPity (mkParams 100 [1 # 2; 1 # 2] (1 # 2) 6 6 true 2) 1)
    200 (createLCG 7)
  = simulateFullRun rand (mkParams 100 [1 # 2; 1 # 2] (1 # 2) 6 6 true 2)
      200 (createLCG 7).
Proof.
  exact (proj2 (reset_makes_star_pity_idle Z rand
                  (mkParams 100 [1 # 2; 1 # 2] (1 # 2) 6 6 true 2) 1 200
                  (createLCG 7) eq_refl ltac:(simpl; lia) ltac:(lia))).
Defined.

(** ** Percentile at the ends and outside *)

(** X10.  [percentile] of an empty array is 0, and of a one-element array
    is that element, for every [p] (inside [0, 1] or not). *)
Theorem percentile_small (x p : Q) :
  percentile [] p = Some 0%Q /\ percentile [x] p = Some x.
Proof.
  split; [reflexivity|].
  unfold percentile. simpl length. change (Z.of_nat 1 - 1) with 0.
  assert (H : Qfloor (inject_Z 0 * p) = 0).
  { rewrite (Qfloor_comp (inject_Z 0 * p) 0); [reflexivity | ring]. }
  rewrite H. reflexivity.
Qed.

(** X11.  On a sorted, non-empty array, [percentile] at 0 is the first
    element, at 1 the last, and for every [p] between 0 and 1 a number
    between the first and the last. *)
Theorem percentile_between_ends (l : list Q) :
  Sorted Qle l -> l <> [] ->
  (exists y, percentile l 0 = Some y /\ y == nthQ l 0)%Q
  /\ percentile l 1 = Some (nthQ l (Z.of_nat (length l) - 1))
  /\ (forall p, 0 <= p -> p <= 1 ->
        exists y, percentile l p = Some y /\
                  nthQ l 0 <= y /\ y <= nthQ l (Z.of_nat (length l) - 1))%Q.
Proof.
  intros Hs Hne.
  assert (Hss : StronglySorted Qle l)
    by (apply Sorted_StronglySorted; [intros x y z; apply Qle_trans | exact Hs]).
  assert (Hm : 0 <= Z.of_nat (length l) - 1)
    by (destruct l; [congruence | simpl length; lia]).
  assert (H0 : (exists y, percentile l 0 = Some y /\ y == nthQ l 0)%Q).
  { rewrite (percentile_inside l Hne Hss 0) by (unfold Qle; simpl; lia).
    assert (Hf : Qfloor (inject_Z (Z.of_nat (length l) - 1) * 0) = 0)
      by (rewrite (Qfloor_comp _ 0); [reflexivity | ring]).
    rewrite Hf. eexists. split; [reflexivity|].
    destruct (0 <? Z.of_nat (length l) - 1); [ring | reflexivity]. }
  assert (H1 : percentile l 1 = Some (nthQ l (Z.of_nat (length l) - 1))).
  { rewrite (percentile_inside l Hne Hss 1) by (unfold Qle; simpl; lia).
    assert (Hf : Qfloor (inject_Z (Z.of_nat (length l) - 1) * 1)
                 = Z.of_nat (length l) - 1)
      by (rewrite (Qfloor_comp _ (inject_Z (Z.of_nat (length l) - 1)));
          [apply Qfloor_Z | ring]).
    rewrite Hf, Z.ltb_irrefl. reflexivity. }
  split; [exact H0|]. split; [exact H1|].
  intros p Hp0 Hp1.
  pose proof (percentile_mono l Hne Hss 0 p (Qle_refl 0) Hp0 Hp1) as Ha.
  pose proof (percentile_mono l Hne Hss p 1 Hp0 Hp1 (Qle_refl 1)) as Hb.
  destruct H0 as (y0 & E0 & Hy0). rewrite E0 in Ha. rewrite H1 in Hb.
  destruct (percentile l p) as [y|]; simpl in *; [|contradiction].
  exists y. split; [reflexivity|]. split; [lra | exact Hb].
Qed.

Lemma percentile_between_ends_witness :
  percentile [1%Q; 2%Q; 4%Q] 1 = Some 4%Q.
Proof.
  refine (proj1 (proj2 (percentile_between_ends [1%Q; 2%Q; 4%Q] _ _))).
  - repeat constructor; unfold Qle; simpl; lia.
  - discriminate.
Defined.

(** X12.  On a non-empty array, [percentile] is not a number when the
    position [(length - 1) * p] is negative or at least the length: the
    reads fall outside the array. *)
Theorem percentile_outside (l : list Q) (p : Q) :
  l <> [] ->
  (inject_Z (Z.of_nat (length l) - 1) * p < 0
   \/ inject_Z (Z.of_nat (length l)) <= inject_Z (Z.of_nat (length l) - 1) * p)%Q ->
  percentile l p = None.
Proof.
  intros Hne H. rewrite percentile_nonempty by assumption. cbv zeta.
  set (pos := (inject_Z (Z.of_nat (length l) - 1) * p)%Q) in *.
  destruct H as [H|H].
  - assert (Hb : Qfloor pos < 0).
    { pose proof (Qfloor_le pos) as L.
      assert (Hlt : (inject_Z (Qfloor pos) < inject_Z 0)%Q)
        by (change (inject_Z 0) with 0%Q; lra).
      now rewrite <- Zlt_Qlt in Hlt. }
    assert (Hlo : Arr.getZ l (Qfloor pos) = None).
    { unfold Arr.getZ.
      now replace (Qfloor pos <? 0) with true by (symmetry; apply Z.ltb_lt; lia). }
    rewrite Hlo. destruct (Arr.getZ l (Qfloor pos + 1)); reflexivity.
  - assert (Hb : Z.of_nat (length l) <= Qfloor pos).
    { rewrite <- (Qfloor_Z (Z.of_nat (length l))). now apply Qfloor_resp_le. }
    assert (Hout : forall z, Z.of_nat (length l) <= z -> Arr.getZ l z = None).
    { intros z Hz. unfold Arr.getZ.
      replace (z <? 0) with false by (symmetry; apply Z.ltb_ge; lia).
      apply nth_error_None. lia. }
    rewrite !Hout by lia. reflexivity.
Qed.

Lemma percentile_outside_witness :
  percentile [1%Q; 2%Q; 4%Q] (- (1 # 2)) = None.
Proof.
  apply percentile_outside; [discriminate|].
  left. reflexivity.
Defined.

(** ** The seeded generator *)

(** X13.  For every seed the generator starts in a state from 1 to
    2^32 - 1, every later state is from 0 to 2^32 - 1, and every draw is
    from 0 to 1, both included. *)
Theorem lcg_ranges (seed : Z) (n : nat) :
  1 <= createLCG seed < 2 ^ 32
  /\ 0 <= lcg_state seed n < 2 ^ 32
  /\ (0 <= lcg_draw seed n <= 1)%Q.
Proof.
  assert (H0 : 1 <= createLCG seed < 2 ^ 32).
  { unfold createLCG. pose proof (to_uint32_range seed) as H.
    destruct (to_uint32 seed =? 0) eqn:E; [split; reflexivity|].
    apply Z.eqb_neq in E. lia. }
  split; [exact H0|]. split.
  - destruct n as [|n]; simpl; [lia|]. apply to_uint32_range.
  - unfold lcg_draw. apply rand_range.
Qed.

Lemma createLCG_wraps seed k : createLCG (seed + k * 2 ^ 32) = createLCG seed.
Proof. unfold createLCG, to_uint32. now rewrite Z.mod_add. Qed.

(** X14.  The stream depends on the seed modulo 2^32 only, and seed 0
    gives the stream of seed 1. *)
Theorem lcg_seed_modulo (seed k : Z) (n : nat) :
  lcg_draw (seed + k * 2 ^ 32) n = lcg_draw seed n
  /\ lcg_draw 0 n = lcg_draw 1 n.
Proof.
  assert (G : forall s t, createLCG s = createLCG t ->
                          lcg_state s n = lcg_state t n).
  { intros s t H. induction n as [|m IH]; simpl; [exact H | now rewrite IH]. }
  unfold lcg_draw.
  rewrite (G _ _ (createLCG_wraps seed k)), (G 0 1 eq_refl).
  split; reflexivity.
Qed.

(** X15.  The step of the generator is one-to-one on the states below
    2^32: two different states have different successors, and different
    draws. *)
Theorem lcg_step_injective (s t : Z) :
  0 <= s < 2 ^ 32 -> 0 <= t < 2 ^ 32 ->
  (snd (rand s) = snd (rand t) -> s = t)
  /\ ((fst (rand s) == fst (rand t))%Q -> s = t).
Proof.
  intros Hs Ht.
  assert (G : snd (rand s) = snd (rand t) -> s = t).
  { unfold rand, to_uint32. cbn [snd]. change (2 ^ 32) with 4294967296 in *.
    intro H.
    pose proof (Z.div_mod (1664525 * s + 1013904223) 4294967296 ltac:(lia)) as D1.
    pose proof (Z.div_mod (1664525 * t + 1013904223) 4294967296 ltac:(lia)) as D2.
    rewrite H in D1.
    set (q1 := (1664525 * s + 1013904223) / 4294967296) in *.
    set (q2 := (1664525 * t + 1013904223) / 4294967296) in *.
    assert (E : 1664525 * (s - t) = 4294967296 * (q1 - q2)) by lia.
    assert (E2 : s - t
                 = 4294967296 * (4276115653 * (q1 - q2) - 1657219 * (s - t)))
      by lia.
    lia. }
  split; [exact G|].
  intro H. apply G. unfold rand in *. cbn [fst snd] in *.
  unfold Qeq in H. cbn [Qnum Qden] in H. lia.
Qed.

Lemma lcg_step_injective_witness : snd (rand 1) <> snd (rand 2).
Proof.
  intro H.
  apply (proj1 (lcg_step_injective 1 2 ltac:(simpl; lia) ltac:(simpl; lia))) in H.
  discriminate.
Defined.

(** ** Helpers of the form *)

Lemma pushUntil_step fuel n pad next :
  pushUntil (S fuel) n pad next =
  if (length next <? n)%nat then pushUntil fuel n pad (next ++ [pad])
  else Some next.
Proof. reflexivity. Qed.

Lemma pushUntil_pads pad n (k : nat) : forall next,
  (length next + k = n)%nat ->
  pushUntil (S k) n pad next = Some (next ++ repeat pad k).
Proof.
  induction k as [|k IH]; intros next H; rewrite pushUntil_step.
  - replace (length next <? n)%nat with false
      by (symmetry; apply Nat.ltb_ge; lia).
    now rewrite app_nil_r.
  - replace (length next <? n)%nat with true
      by (symmetry; apply Nat.ltb_lt; lia).
    rewrite IH by (rewrite length_app; simpl; lia).
    now rewrite <- app_assoc.
Qed.

Lemma pushUntil_mono pad n fuel : forall fuel' next x,
  pushUntil fuel n pad next = Some x -> (fuel <= fuel')%nat ->
  pushUntil fuel' n pad next = Some x.
Proof.
  induction fuel as [|fuel IH]; intros fuel' next x H Hle; [discriminate|].
  destruct fuel' as [|fuel']; [lia|]. rewrite pushUntil_step in *.
  destruct (length next <? n)%nat; [|exact H].
  apply IH; [exact H | lia].
Qed.

Lemma resizeStarProbs_returns n prev :
  returns (fun fuel => resizeStarProbs fuel n prev)
          (firstn n prev ++ repeat (padValue prev) (n - length prev)).
Proof.
  apply (returns_of_run _ (S (n - length prev))).
  - intros a b x H Hle. unfold resizeStarProbs in *.
    now apply (pushUntil_mono _ _ a).
  - unfold resizeStarProbs. apply pushUntil_pads.
    rewrite length_firstn. lia.
Qed.

Lemma last_In (l : list Q) d : l <> [] -> In (last l d) l.
Proof.
  induction l as [|x t IH]; [congruence|]. intros _.
  destruct t as [|y t]; [now left|].
  right. apply IH. discriminate.
Qed.

(** X16.  [resizeStarProbs(n)] returns exactly [n] probabilities: the first
    [n] of the previous ones, followed, when there were fewer, by copies of
    the last previous one (0.2 when there was none).  Resizing to at most
    the previous length only truncates. *)
Theorem resizeStarProbs_length (n : nat) (prev : list Q) :
  exists next,
    returns (fun fuel => resizeStarProbs fuel n prev) next /\
    length next = n /\
    next = firstn n prev ++ repeat (padValue prev) (n - length prev) /\
    ((n <= length prev)%nat -> next = firstn n prev).
Proof.
  eexists. split; [apply resizeStarProbs_returns|].
  split; [|split; [reflexivity|]].
  - rewrite length_app, length_firstn, repeat_length. lia.
  - intro H. replace (n - length prev)%nat with O by lia.
    apply app_nil_r.
Qed.

(** X17.  [applySuggestedStars] sets 3, 4 or 5 stars and leaves exactly
    that many star probabilities; if the previous probabilities were all
    between 0 and 1, so are the new ones. *)
Theorem applySuggestedStars_consistent (fromLevel : Z) (prev : list Q) :
  exists stars probs,
    returns (fun fuel => applySuggestedStars fuel fromLevel prev) (stars, probs) /\
    3 <= stars <= 5 /\
    Z.of_nat (length probs) = stars /\
    (Forall (fun q => 0 <= q /\ q <= 1)%Q prev ->
     Forall (fun q => 0 <= q /\ q <= 1)%Q probs).
Proof.
  set (s := suggestedStarsForLevel fromLevel).
  assert (Hs : 3 <= s <= 5).
  { unfold s, suggestedStarsForLevel.
    destruct (fromLevel <=? 15); [lia|]. destruct (20 <=? fromLevel); lia. }
  destruct (resizeStarProbs_returns (Z.to_nat s) prev) as [fuel0 H0].
  exists s, (firstn (Z.to_nat s) prev
             ++ repeat (padValue prev) (Z.to_nat s - length prev)).
  split; [|split; [exact Hs|split]].
  - exists fuel0. intros fuel Hf. unfold applySuggestedStars. fold s.
    now rewrite (H0 fuel Hf).
  - rewrite length_app, length_firstn, repeat_length. lia.
  - intro Hall. apply Forall_app. split.
    + apply Forall_forall. intros q Hq. apply In_firstn in Hq.
      exact (proj1 (Forall_forall _ _) Hall q Hq).
    + apply Forall_forall. intros q Hq. apply repeat_spec in Hq. subst q.
      unfold padValue. destruct prev as [|x t] eqn:E.
      * split; unfold Qle; simpl; lia.
      * apply (proj1 (Forall_forall _ _) Hall). apply last_In. discriminate.
Qed.

Lemma applySuggestedStars_consistent_witness :
  exists stars probs,
    returns (fun fuel => applySuggestedStars fuel 18 [1 # 5; 1 # 2]) (stars, probs) /\
    Forall (fun q => 0 <= q /\ q <= 1)%Q probs.
Proof.
  destruct (applySuggestedStars_consistent 18 [1 # 5; 1 # 2])
    as (stars & probs & H1 & _ & _ & H4).
  exists stars, probs. split; [exact H1|]. apply H4.
  repeat constructor; unfold Qle; simpl; lia.
Defined.

(** ** Per-star table *)

(** X18.  [summarizePerStar] gives one row per star, and in every row the
    three percentiles are in order: p50 <= p90 <= p99 (before rounding). *)
Theorem summarizePerStar_rows (perStarArrs : list (list Q)) :
  length (summarizePerStar perStarArrs) = length perStarArrs
  /\ (forall row, In row (summarizePerStar perStarArrs) ->
        ole (row_p50 row) (row_p90 row) /\ ole (row_p90 row) (row_p99 row)).
Proof.
  unfold summarizePerStar. split; [apply length_map|].
  intros row H. apply in_map_iff in H as (arr & <- & _). simpl.
  split; apply percentile_mono_sorted; unfold Qle; simpl; lia.
Qed.
